(** * The OpenAI provider adapter of core/llm/llms/OpenAI.ts

    A shallow embedding of the class [OpenAI]: the message and argument
    converters, the endpoint resolver, the two event-stream consumers,
    the dispatcher [_streamChat], the two completion methods and
    [listModels], followed by the properties the specification states
    about them and by further properties of the code.

    JavaScript values are an untyped tree ([js]); a function that can
    throw returns a [result]; an async generator is the list of values it
    yields together with the error that ended it, if any ([run]).  What
    the class takes from its runtime (the [URL] constructor, [this.fetch]
    with [streamSse]) is a variable of the section [Adapter].  What the
    URL Standard says of the constructor on plain http and https URLs is
    [url_standard]; statements about resolved URLs hold for every
    constructor that conforms to it, and the examples run with one.

    The construction of the chat payload is embedded a second time, on a
    heap of objects ([Heap]), to state what the call does to objects of
    the caller; the heap model is shown to compute what the tree model
    computes. *)

From Stdlib Require Import ZArith Ascii.
From stdpp Require Import base tactics option list strings numbers pretty.

Local Open Scope Z_scope.
Set Warnings "-register-all".

(** ** JavaScript values *)

(** Strings are sequences of 8-bit code units; numbers are the number
    values of integers, [JNum n] being the double nearest to [n] (the code
    never computes with a number, it only tests one for truthiness or
    prints it).  An object is the list of its own enumerable string-keyed
    properties in insertion order. *)
Inductive js : Type :=
| JUndef
| JNull
| JBool (b : bool)
| JNum (n : Z)
| JStr (s : string)
| JArr (elems : list js)
| JObj (fields : list (string * js)).

Inductive error : Type :=
| TypeError
| Error (message : string).

Inductive result (A : Type) : Type :=
| Ok (a : A)
| Throw (e : error).
Arguments Ok {A} a.
Arguments Throw {A} e.

#[global] Instance result_ret : MRet result := λ A a, Ok a.
#[global] Instance result_bind : MBind result := λ A B f m,
  match m with
  | Ok a => f a
  | Throw e => Throw e
  end.

#[global] Instance result_fmap : FMap result := λ A B f m,
  match m with
  | Ok a => Ok (f a)
  | Throw e => Throw e
  end.

(** [x === "s"] for a string literal. *)
Definition str_eq (v : js) (s : string) : bool :=
  match v with
  | JStr t => bool_decide (t = s)
  | _ => false
  end.

(** [typeof v === "string"]. *)
Definition is_string (v : js) : bool :=
  match v with
  | JStr _ => true
  | _ => false
  end.

Definition nullish (v : js) : bool :=
  match v with
  | JUndef | JNull => true
  | _ => false
  end.

(** ToBoolean. *)
Definition truthy (v : js) : bool :=
  match v with
  | JUndef | JNull => false
  | JBool b => b
  | JNum n => negb (n =? 0)
  | JStr s => negb (bool_decide (s = ""))
  | JArr _ | JObj _ => true
  end.

(** [a || b] on values. *)
Definition js_or (a b : js) : js := if truthy a then a else b.

(** *** Properties *)

Fixpoint field (fs : list (string * js)) (k : string) : js :=
  match fs with
  | [] => JUndef
  | (k', v) :: fs' => if bool_decide (k' = k) then v else field fs' k
  end.

(** [o[k] = v] on the property list: an existing key keeps its place. *)
Fixpoint set_field {V} (fs : list (string * V)) (k : string) (v : V)
  : list (string * V) :=
  match fs with
  | [] => [(k, v)]
  | (k', v') :: fs' =>
      if bool_decide (k' = k) then (k, v) :: fs'
      else (k', v') :: set_field fs' k v
  end.

(** [delete o[k]]. *)
Definition delete_field {V} (fs : list (string * V)) (k : string)
  : list (string * V) :=
  filter (λ kv, kv.1 ≠ k) fs.

Definition str_of_char (c : Ascii.ascii) : js := JStr (String c EmptyString).

(** The element of an array-like whose canonical index key is [k],
    counting from [i]. *)
Fixpoint at_key {A} (conv : A → js) (xs : list A) (i : nat) (k : string) : js :=
  match xs with
  | [] => JUndef
  | x :: xs' => if bool_decide (pretty i = k) then conv x else at_key conv xs' (S i) k
  end.

(** The properties of an array or of a string: [length] and the
    indices. *)
Definition array_like {A} (conv : A → js) (xs : list A) (k : string) : js :=
  if bool_decide (k = "length") then JNum (Z.of_nat (length xs))
  else at_key conv xs 0 k.

(** [v.k] or [v[k]] on a value that is neither [null] nor [undefined]:
    own data properties, the indices and [length] of arrays and strings.
    None of the names the adapter reads is a prototype member. *)
Definition prop (v : js) (k : string) : js :=
  match v with
  | JObj fs => field fs k
  | JArr es => array_like id es k
  | JStr s => array_like str_of_char (String.list_ascii_of_string s) k
  | _ => JUndef
  end.

(** [v[i]] for a numeric literal [i]. *)
Definition item (v : js) (i : nat) : js :=
  match v with
  | JObj fs => field fs (pretty i)
  | JArr es => default JUndef (es !! i)
  | JStr s => default JUndef (str_of_char <$> String.list_ascii_of_string s !! i)
  | _ => JUndef
  end.

(** [v.k]: a TypeError on [null] and [undefined]. *)
Definition get (v : js) (k : string) : result js :=
  if nullish v then Throw TypeError else Ok (prop v k).

Definition get_item (v : js) (i : nat) : result js :=
  if nullish v then Throw TypeError else Ok (item v i).

(** [v?.k] and [v?.[i]]: the chain short-circuits to [undefined]. *)
Definition opt_get (v : js) (k : string) : js :=
  if nullish v then JUndef else prop v k.

Definition opt_item (v : js) (i : nat) : js :=
  if nullish v then JUndef else item v i.

(** The properties [{...v}] copies into an object literal that already
    holds [acc]. *)
Fixpoint index_fields {A} (conv : A → js) (xs : list A) (i : nat)
  : list (string * js) :=
  match xs with
  | [] => []
  | x :: xs' => (pretty i, conv x) :: index_fields conv xs' (S i)
  end.

Definition own_fields (v : js) : list (string * js) :=
  match v with
  | JObj fs => fs
  | JArr es => index_fields id es 0
  | JStr s => index_fields str_of_char (String.list_ascii_of_string s) 0
  | _ => []
  end.

Definition spread (acc : list (string * js)) (v : js) : list (string * js) :=
  foldl (λ o kv, set_field o kv.1 kv.2) acc (own_fields v).

(** [v.map(f)]: a TypeError unless [v] is an array. *)
Definition array_map (f : js → result js) (v : js) : result js :=
  match v with
  | JArr es => JArr <$> mapM f es
  | _ => Throw TypeError
  end.

(** ** Model classification *)

Definition NON_CHAT_MODELS : list string :=
  [ "text-davinci-002"; "text-davinci-003"; "code-davinci-002";
    "text-ada-001"; "text-babbage-001"; "text-curie-001";
    "davinci"; "curie"; "babbage"; "ada" ].

Definition CHAT_ONLY_MODELS : list string :=
  [ "gpt-3.5-turbo"; "gpt-3.5-turbo-0613"; "gpt-3.5-turbo-16k"; "gpt-4";
    "gpt-35-turbo-16k"; "gpt-35-turbo-0613"; "gpt-35-turbo"; "gpt-4-32k";
    "gpt-4-turbo-preview"; "gpt-4-vision"; "gpt-4-0125-preview";
    "gpt-4-1106-preview" ].

(** [xs.includes(x)] on an array of strings. *)
Definition includes (xs : list string) (x : string) : bool :=
  bool_decide (x ∈ xs).

(** ** Async generators *)

(** What a consumer that drains the generator observes: the values
    yielded, in order, and the error that ended the iteration, if one
    did. *)
Record run (A : Type) : Type := Run {
  yielded : list A;
  thrown : option error
}.
Arguments Run {A} yielded thrown.
Arguments yielded {A} r.
Arguments thrown {A} r.

Definition yield {A} (a : A) (rest : run A) : run A :=
  Run (a :: yielded rest) (thrown rest).

Definition run_map {A B} (f : A → B) (r : run A) : run B :=
  Run (f <$> yielded r) (thrown r).

(** The body of a [for await] loop whose only effect is an optional
    [yield]: [Ok (Some a)] yields [a], [Ok None] goes on to the next
    value, [Throw e] ends the generator. *)
Fixpoint for_await {A} (body : js → result (option A)) (values : list js)
    (failure : option error) : run A :=
  match values with
  | [] => Run [] failure
  | value :: rest =>
      match body value with
      | Throw e => Run [] (Some e)
      | Ok (Some a) => yield a (for_await body rest failure)
      | Ok None => for_await body rest failure
      end
  end.

(** The parsed events [streamSse(response)] produces, and the error that
    interrupts them, if the transport or the parser fails. *)
Record Response : Type := {
  events : list js;
  failure : option error
}.

Record Request : Type := {
  url : string;
  method : string;
  headers : list (string * string);
  body : option js
}.

(** ** Configuration and options *)

(** Modelled from the spec: the configuration fields the class inherits
    from BaseLLM (section 3 and 6: API base, key, type, deployment engine,
    API version), each optional, and the legacy-completions flag the class
    declares itself. *)
Record Config : Type := {
  apiBase : option string;
  apiKey : option string;
  apiType : option string;
  engine : option string;
  apiVersion : option string;
  useLegacyCompletionsEndpoint : bool
}.

(** Modelled from the spec: CompletionOptions (section 3), "model: string,
    maxTokens?, temperature?, topP?, frequencyPenalty?, presencePenalty?,
    stop?: ordered sequence of string".  The numeric options are passed
    through as they are, so they stay untyped values. *)
Record CompletionOptions : Type := {
  model : string;
  maxTokens : js;
  temperature : js;
  topP : js;
  frequencyPenalty : js;
  presencePenalty : js;
  stop : option (list string)
}.

(** An optional string inside a template literal. *)
Definition template (s : option string) : string := default "undefined" s.

(** [hay.includes(needle)] on strings. *)
Fixpoint str_includes (hay needle : string) : bool :=
  String.prefix needle hay ||
  match hay with
  | EmptyString => false
  | String _ hay' => str_includes hay' needle
  end.

(** ** Message and argument converters *)

Definition convertPart (part : js) : result js :=
  type ← get part "type";
  text ← get part "text";
  imageUrl ← get part "imageUrl";
  Ok (JObj [ ("type", type); ("text", text);
             ("image_url", JObj (set_field (spread [] imageUrl) "detail" (JStr "low"))) ]).

Definition _convertMessage (message : js) : result js :=
  content ← get message "content";
  if is_string content then Ok message
  else
    parts ← array_map convertPart content;
    Ok (JObj (set_field (spread [] message) "content" parts)).

(** An optional array of strings as a value, and [stop?.slice(0, n)]. *)
Definition opt_strings (o : option (list string)) : js :=
  default JUndef ((λ l, JArr (JStr <$> l)) <$> o).

Definition opt_slice0 (n : nat) (o : option (list string)) : option (list string) :=
  take n <$> o.

(** [this.apiBase?.includes(":1337")] as a condition. *)
Definition jan_marker (cfg : Config) : bool :=
  default false ((λ base, str_includes base ":1337") <$> apiBase cfg).

Definition _convertArgs (cfg : Config) (options : CompletionOptions)
    (messages : list js) : result (list (string * js)) :=
  msgs ← mapM _convertMessage messages;
  Ok [ ("messages", JArr msgs);
       ("model", JStr (model options));
       ("max_tokens", maxTokens options);
       ("temperature", temperature options);
       ("top_p", topP options);
       ("frequency_penalty", frequencyPenalty options);
       ("presence_penalty", presencePenalty options);
       ("stop", if jan_marker cfg
                then opt_strings (opt_slice0 4 (stop options))
                else opt_strings (stop options)) ].

(** ** String conversion *)

(** A number [JNum n] is the number value of the integer [n]: the double
    nearest to it, the even one of two nearest, as [JSON.parse] reads the
    numeral.  [double_of n] is that double for a positive [n]. *)
Definition double_of (n : Z) : Z :=
  let e := Z.log2 n + 1 - 53 in
  if e <=? 0 then n
  else
    let q := Z.shiftr n e in
    let r := n - Z.shiftl q e in
    let half := Z.shiftl 1 (e - 1) in
    Z.shiftl (if (half <? r) || ((r =? half) && Z.odd q) then q + 1 else q) e.

(** The digits of Number::toString: of the integers whose number value
    is [x], one with the fewest significant digits, and of these the one
    nearest to [x].  [best] is the answer among the multiples of [step];
    when no multiple of a power of ten has the number value [x], no
    multiple of a higher power has. *)
Fixpoint shortest (fuel : nat) (x step best : Z) : Z :=
  match fuel with
  | O => best
  | S fuel' =>
      let step' := 10 * step in
      let lo := x / step' * step' in
      let hi := lo + step' in
      let lo_ok := (0 <? lo) && (double_of lo =? x) in
      let hi_ok := double_of hi =? x in
      if lo_ok || hi_ok then
        shortest fuel' x step'
          (if lo_ok && hi_ok then
             if x - lo <? hi - x then lo
             else if hi - x <? x - lo then hi
             else if Z.even (lo / step') then lo else hi
           else if lo_ok then lo else hi)
      else best
  end.

Fixpoint strip_zeros (digits : string) : string :=
  match digits with
  | EmptyString => EmptyString
  | String c rest =>
      match strip_zeros rest with
      | EmptyString =>
          if bool_decide (c = "0"%char) then EmptyString else String c EmptyString
      | rest' => String c rest'
      end
  end.

(** The notation of a number from 10^21 on: [d.ddde+n]. *)
Definition exponential (v : Z) : string :=
  let digits := pretty v in
  let e := "e+" +:+ pretty (Z.of_nat (String.length digits) - 1) in
  match strip_zeros digits with
  | EmptyString => digits
  | String c EmptyString => String c e
  | String c rest => String c ("." +:+ rest +:+ e)
  end.

(** Number::toString, radix 10.  A double has fewer than 2^1024. *)
Definition number_to_string (n : Z) : string :=
  if n =? 0 then "0"
  else
    let sign := if n <? 0 then "-" else "" in
    let x := double_of (Z.abs n) in
    if Z.shiftl 1 1024 <=? x then sign +:+ "Infinity"
    else
      let v := shortest 400 x 1 x in
      sign +:+ (if v <? 10 ^ 21 then pretty v else exponential v).

(** ToString, as [completion += v] applies it to its right operand, when
    it returns.  An array prints as its elements joined by commas, an
    object through [Object.prototype.toString]. *)
Fixpoint to_string (v : js) : string :=
  match v with
  | JUndef => "undefined"
  | JNull => "null"
  | JBool b => if b then "true" else "false"
  | JNum n => number_to_string n
  | JStr s => s
  | JArr es =>
      String.concat "," ((λ e, if nullish e then "" else to_string e) <$> es)
  | JObj _ => "[object Object]"
  end.

(** When ToString throws.  An object is converted by its [toString]
    method; an own property of that name hides the inherited method, and
    no value of [js] is callable, so the conversion finds no method and
    throws a TypeError ([valueOf], own or inherited, gives no primitive).
    An array converts its elements, but for [null] and [undefined]. *)
Fixpoint to_string_throws (v : js) : bool :=
  match v with
  | JArr es => existsb to_string_throws es
  | JObj fs => bool_decide ("toString" ∈ fs.*1)
  | _ => false
  end.

Definition ToString (v : js) : result string :=
  if to_string_throws v then Throw TypeError else Ok (to_string v).

(** [xs.join(sep)]. *)
Definition array_join (sep : string) (xs : list js) : string :=
  String.concat sep ((λ e, if nullish e then "" else to_string e) <$> xs).

(** ** Endpoints *)

Inductive Endpoint : Type := ChatCompletions | Completions | Models.

Definition endpoint_name (e : Endpoint) : string :=
  match e with
  | ChatCompletions => "chat/completions"
  | Completions => "completions"
  | Models => "models"
  end.

Definition NO_API_BASE : string :=
  "No API base URL provided. Please set the 'apiBase' option in config.json".

(** The template literal of the azure branch of [_getEndpoint]. *)
Definition deployment_path (cfg : Config) (endpoint : Endpoint) : string :=
  "openai/deployments/" +:+ template (engine cfg) +:+ "/" +:+
  endpoint_name endpoint +:+ "?api-version=" +:+ template (apiVersion cfg).

(** [!this.apiBase]. *)
Definition no_base (cfg : Config) : bool :=
  match apiBase cfg with
  | None => true
  | Some base => bool_decide (base = "")
  end.

Definition auth_headers (cfg : Config) : list (string * string) :=
  [ ("Authorization", "Bearer " +:+ template (apiKey cfg));
    ("api-key", default "" (apiKey cfg)) ].

Definition post_headers (cfg : Config) : list (string * string) :=
  ("Content-Type", "application/json") :: auth_headers cfg.

(** A generator whose first statements can throw before anything is
    yielded. *)
Definition gen_bind {A B} (m : result A) (k : A → run B) : run B :=
  match m with
  | Ok a => k a
  | Throw e => Run [] (Some e)
  end.

(** ** Event handlers *)

(** The body of the loop of [_legacystreamComplete]. *)
Definition legacy_event (value : js) : result (option js) :=
  choices ← get value "choices";
  if truthy (opt_get (opt_item choices 0) "text")
  then
    finish_reason ← get value "finish_reason";
    if negb (str_eq finish_reason "eos")
    then
      choices ← get value "choices";
      choice ← get_item choices 0;
      text ← get choice "text";
      Ok (Some text)
    else Ok None
  else Ok None.

(** The body of the loop of the chat branch of [_streamChat]. *)
Definition chat_event (value : js) : result (option js) :=
  choices ← get value "choices";
  if truthy (opt_get (opt_get (opt_item choices 0) "delta") "content")
  then
    choices ← get value "choices";
    choice ← get_item choices 0;
    delta ← get choice "delta";
    Ok (Some delta)
  else Ok None.

(** [m => ({...m, content: m.content === "" ? " " : m.content})]. *)
Definition fix_content (m : js) : result js :=
  content ← get m "content";
  Ok (JObj (set_field (spread [] m) "content"
              (if str_eq content "" then JStr " " else content))).

Definition user_message (prompt : string) : js :=
  JObj [ ("role", JStr "user"); ("content", JStr prompt) ].

Definition assistant_chunk (content : js) : js :=
  JObj [ ("role", JStr "assistant"); ("content", content) ].

(** [messages[messages.length - 1]]. *)
Definition last_message (messages : list js) : js :=
  default JUndef (last messages).

Section Adapter.

(** The runtime: [new URL(input, base)] as the href of the URL it
    builds, or nothing when it throws its TypeError; and [this.fetch]
    followed by [streamSse]. *)
Variable URL_new : string → option string → option string.
Variable fetch : Request → result Response.

(** The separator [stripImages] puts between the texts it keeps. *)
Variable part_separator : string.

(** Modelled from the spec: stripImages of core/llm/countTokens, which is
    not part of this file.  The spec says "strip any image parts" of a
    content that is a string or an ordered sequence of parts, each a
    text part [{type: "text", text}] or an image part: a string is
    returned as it is, and of a sequence the texts of the parts tagged
    "text" are kept and joined. *)
Definition stripImages (content : js) : js :=
  match content with
  | JArr parts =>
      JStr (array_join part_separator
              ((λ part, opt_get part "text") <$>
               filter (λ part, str_eq (opt_get part "type") "text") parts))
  | _ => content
  end.

Definition new_URL (input : string) (base : option string) : result string :=
  match URL_new input base with
  | Some href => Ok href
  | None => Throw TypeError
  end.

Definition _getEndpoint (cfg : Config) (endpoint : Endpoint) : result string :=
  if bool_decide (apiType cfg = Some "azure") then
    new_URL (deployment_path cfg endpoint) (apiBase cfg)
  else if no_base cfg then Throw (Error NO_API_BASE)
  else new_URL (endpoint_name endpoint) (apiBase cfg).

(** The request of the legacy streamer: the converted arguments with
    [prompt] set and [messages] deleted, and [stream: true]. *)
Definition legacy_body (cfg : Config) (prompt : js)
    (options : CompletionOptions) : result (list (string * js)) :=
  args ← _convertArgs cfg options [];
  let args := set_field args "prompt" prompt in
  let args := delete_field args "messages" in
  Ok (set_field (spread [] (JObj args)) "stream" (JBool true)).

Definition post (cfg : Config) (endpoint : Endpoint)
    (payload : list (string * js)) : result Response :=
  href ← _getEndpoint cfg endpoint;
  fetch {| url := href; method := "POST"; headers := post_headers cfg;
           body := Some (JObj payload) |}.

Definition _legacystreamComplete (cfg : Config) (prompt : js)
    (options : CompletionOptions) : run js :=
  gen_bind (legacy_body cfg prompt options) (λ payload,
  gen_bind (post cfg Completions payload) (λ response,
  for_await legacy_event (events response) (failure response))).

(** The payload of the chat branch: the converted arguments with
    [stream: true], then [body.messages] replaced by its fixed-up copy. *)
Definition chat_body (cfg : Config) (messages : list js)
    (options : CompletionOptions) : result (list (string * js)) :=
  args ← _convertArgs cfg options messages;
  let body := set_field (spread [] (JObj args)) "stream" (JBool true) in
  fixed ← array_map fix_content (field body "messages");
  Ok (set_field body "messages" fixed).

Definition legacy_prompt (messages : list js) : js :=
  stripImages (js_or (opt_get (last_message messages) "content") (JStr "")).

Definition legacy_path (cfg : Config) (messages : list js)
    (options : CompletionOptions) : run js :=
  run_map assistant_chunk
    (_legacystreamComplete cfg (legacy_prompt messages) options).

Definition chat_path (cfg : Config) (messages : list js)
    (options : CompletionOptions) : run js :=
  gen_bind (chat_body cfg messages options) (λ payload,
  gen_bind (post cfg ChatCompletions payload) (λ response,
  for_await chat_event (events response) (failure response))).

Definition _streamChat (cfg : Config) (messages : list js)
    (options : CompletionOptions) : run js :=
  if negb (includes CHAT_ONLY_MODELS (model options)) &&
     (includes NON_CHAT_MODELS (model options) ||
      useLegacyCompletionsEndpoint cfg)
  then legacy_path cfg messages options
  else chat_path cfg messages options.

(** [completion += chunk.content] over the chunks of a generator. *)
Fixpoint accumulate (completion : string) (chunks : list js) : result string :=
  match chunks with
  | [] => Ok completion
  | chunk :: rest =>
      content ← get chunk "content";
      piece ← ToString content;
      accumulate (completion +:+ piece) rest
  end.

Definition _complete (cfg : Config) (prompt : string)
    (options : CompletionOptions) : result string :=
  let chunks := _streamChat cfg [user_message prompt] options in
  completion ← accumulate "" (yielded chunks);
  match thrown chunks with
  | None => Ok completion
  | Some e => Throw e
  end.

Definition _streamComplete (cfg : Config) (prompt : string)
    (options : CompletionOptions) : run js :=
  let chunks := _streamChat cfg [user_message prompt] options in
  for_await (λ chunk, content ← get chunk "content"; Ok (Some (stripImages content)))
    (yielded chunks) (thrown chunks).

End Adapter.

(** ** The URL constructor *)

(** [new URL(input, base)] belongs to the runtime.  [url_standard] is what
    the URL Standard says of it on part of its domain: [Some (Some href)]
    when it returns the URL with that href, [Some None] when it throws its
    TypeError, [None] where this development says nothing.  The part
    covered:

    - a base [http://] or [https://], then a host, an optional port, and
      a path; no user information, query or fragment.  The host is a
      domain of labels of letters, digits and inner hyphens, none an
      [xn--] label and the last one starting with a letter (upper-case
      letters are lower-cased), or four decimal octets.  The port is a
      decimal number (one above 65535 is an error; the default port of
      the scheme is dropped, and so are leading zeros).  The path has
      only unreserved characters and no dot segment;
    - an input that is a relative path which does not start with ["/"],
      with an optional query, of characters that are not escaped and
      without a dot segment.

    There the parser drops the last segment of the base path and appends
    the input.  Without a base, or with the empty string for a base, such
    an input is an error. *)

Definition char_in (lo hi : N) (c : Ascii.ascii) : bool :=
  let n := Ascii.N_of_ascii c in (N.leb lo n && N.leb n hi)%bool.

Definition is_lower (c : Ascii.ascii) : bool := char_in 97 122 c.
Definition is_upper (c : Ascii.ascii) : bool := char_in 65 90 c.
Definition is_digit (c : Ascii.ascii) : bool := char_in 48 57 c.

Definition is_unreserved (c : Ascii.ascii) : bool :=
  is_lower c || char_in 65 90 c || char_in 48 57 c ||
  bool_decide (c ∈ ["-"; "_"; "."; "~"]%char).

Definition is_query_char (c : Ascii.ascii) : bool :=
  is_unreserved c || bool_decide (c ∈ ["="; "&"]%char).

Fixpoint str_forall (p : Ascii.ascii → bool) (s : string) : bool :=
  match s with
  | EmptyString => true
  | String c s' => p c && str_forall p s'
  end.

Fixpoint has_slash (s : string) : bool :=
  match s with
  | EmptyString => false
  | String c s' => bool_decide (c = "/"%char) || has_slash s'
  end.

Fixpoint ends_with_slash (s : string) : bool :=
  match s with
  | EmptyString => false
  | String c EmptyString => bool_decide (c = "/"%char)
  | String _ s' => ends_with_slash s'
  end.

(** [strip_prefix p s] is what follows [p] in [s]. *)
Fixpoint strip_prefix (p s : string) : option string :=
  match p, s with
  | EmptyString, _ => Some s
  | String a p', String b s' =>
      if bool_decide (a = b) then strip_prefix p' s' else None
  | String _ _, EmptyString => None
  end.

(** The part of [s] before its first ["/"], and the rest. *)
Fixpoint break_slash (s : string) : string * string :=
  match s with
  | EmptyString => (EmptyString, EmptyString)
  | String c s' =>
      if bool_decide (c = "/"%char) then (EmptyString, s)
      else let '(h, p) := break_slash s' in (String c h, p)
  end.

(** The part of [s] before its first [sep], and what follows it. *)
Fixpoint break_at (sep : Ascii.ascii) (s : string) : string * option string :=
  match s with
  | EmptyString => (EmptyString, None)
  | String c s' =>
      if bool_decide (c = sep) then (EmptyString, Some s')
      else let '(p, q) := break_at sep s' in (String c p, q)
  end.

Definition break_query : string → string * option string := break_at "?".
Definition break_colon : string → string * option string := break_at ":".

(** The pieces of a string, split at [sep]. *)
Fixpoint split_at (sep : Ascii.ascii) (s : string) : list string :=
  match s with
  | EmptyString => [EmptyString]
  | String c s' =>
      if bool_decide (c = sep) then EmptyString :: split_at sep s'
      else match split_at sep s' with
           | piece :: pieces => String c piece :: pieces
           | [] => [String c EmptyString]
           end
  end.

Definition segments : string → list string := split_at "/".
Definition labels : string → list string := split_at ".".

Definition segment_ok (seg : string) : bool :=
  str_forall is_unreserved seg &&
  negb (bool_decide (seg = ".")) && negb (bool_decide (seg = "..")).

Definition path_ok (path : string) : bool :=
  forallb segment_ok (segments path).

(** *** Hosts *)

Definition lower_char (c : Ascii.ascii) : Ascii.ascii :=
  if is_upper c then Ascii.ascii_of_N (Ascii.N_of_ascii c + 32) else c.

Fixpoint lower (s : string) : string :=
  match s with
  | EmptyString => EmptyString
  | String c s' => String (lower_char c) (lower s')
  end.

Definition first_char (s : string) : option Ascii.ascii :=
  match s with
  | EmptyString => None
  | String c _ => Some c
  end.

Fixpoint last_char (s : string) : option Ascii.ascii :=
  match s with
  | EmptyString => None
  | String c EmptyString => Some c
  | String _ s' => last_char s'
  end.

Definition is_alnum (c : Ascii.ascii) : bool := is_lower c || is_digit c.

(** A label of a lower-case domain that the host parser leaves as it
    is. *)
Definition label_ok (label : string) : bool :=
  str_forall (λ c, is_alnum c || bool_decide (c = "-"%char)) label &&
  from_option is_alnum false (first_char label) &&
  from_option is_alnum false (last_char label) &&
  negb (String.prefix "xn--" label).

(** The last label starts with a letter, so the host does not end in a
    number and is not read as an IPv4 address. *)
Definition domain_ok (host : string) : bool :=
  forallb label_ok (labels host) &&
  from_option (λ label, from_option is_lower false (first_char label)) false
    (last (labels host)).

Fixpoint digits_value (acc : N) (digits : string) : N :=
  match digits with
  | EmptyString => acc
  | String c digits' =>
      digits_value (10 * acc + (Ascii.N_of_ascii c - 48))%N digits'
  end.

(** A decimal octet as the serializer prints it. *)
Definition octet_ok (part : string) : bool :=
  str_forall is_digit part && negb (bool_decide (part = "")) &&
  (bool_decide (part = "0") ||
   negb (bool_decide (first_char part = Some "0"%char))) &&
  (digits_value 0 part <=? 255)%N.

Definition ipv4_ok (host : string) : bool :=
  bool_decide (length (labels host) = 4%nat) && forallb octet_ok (labels host).

Definition parse_host (host : string) : option string :=
  let host := lower host in
  if domain_ok host || ipv4_ok host then Some host else None.

(** *** Ports *)

Definition default_port (scheme : string) : N :=
  if bool_decide (scheme = "https://") then 443%N else 80%N.

(** What the serializer prints for the port: nothing for no port, an
    empty port or the default port of the scheme. *)
Definition parse_port (scheme : string) (port : option string)
  : option (option string) :=
  match port with
  | None => Some (Some EmptyString)
  | Some digits =>
      if str_forall is_digit digits then
        if bool_decide (digits = "") then Some (Some EmptyString)
        else
          let n := digits_value 0 digits in
          if (65535 <? n)%N then Some None
          else if (n =? default_port scheme)%N then Some (Some EmptyString)
          else Some (Some (":" +:+ pretty n))
      else None
  end.

(** *** Bases and references *)

Definition strip_scheme (base : string) : option (string * string) :=
  match strip_prefix "https://" base with
  | Some rest => Some ("https://", rest)
  | None =>
      match strip_prefix "http://" base with
      | Some rest => Some ("http://", rest)
      | None => None
      end
  end.

(** The host and port of a base as the serializer prints them. *)
Definition parse_authority (scheme authority : string) : option (option string) :=
  let '(host, port) := break_colon authority in
  match parse_host host, parse_port scheme port with
  | Some host, Some (Some port) => Some (Some (host +:+ port))
  | Some _, Some None => Some None
  | _, _ => None
  end.

(** The origin and the path of a base. *)
Definition parse_base (base : string) : option (option (string * string)) :=
  match strip_scheme base with
  | None => None
  | Some (scheme, rest) =>
      let '(authority, path) := break_slash rest in
      if path_ok path then
        match parse_authority scheme authority with
        | Some (Some authority) => Some (Some (scheme +:+ authority, path))
        | Some None => Some None
        | None => None
        end
      else None
  end.

(** A base that the parser and the serializer give back as it is. *)
Definition normalized (base : string) : bool :=
  match strip_scheme base with
  | None => false
  | Some (scheme, rest) =>
      let '(authority, path) := break_slash rest in
      path_ok path &&
      bool_decide (parse_authority scheme authority = Some (Some authority))
  end.

(** A relative path that does not start with ["/"], and an optional
    query. *)
Definition reference_ok (input : string) : bool :=
  let '(path, query) := break_query input in
  path_ok path &&
  negb (bool_decide (head (segments path) = Some EmptyString)) &&
  str_forall is_query_char (default EmptyString query).

(** The path up to and including its last ["/"]. *)
Fixpoint dirname (path : string) : string :=
  match path with
  | EmptyString => EmptyString
  | String c path' =>
      if has_slash path' then String c (dirname path')
      else if bool_decide (c = "/"%char) then "/" else EmptyString
  end.

Definition url_standard (input : string) (base : option string)
  : option (option string) :=
  match base with
  | None => if reference_ok input then Some None else None
  | Some base =>
      if bool_decide (base = "") then Some None
      else
        match parse_base base with
        | Some (Some (origin, path)) =>
            if reference_ok input
            then Some (Some (origin +:+
                             dirname (if bool_decide (path = "") then "/" else path)
                             +:+ input))
            else None
        | Some None => Some None
        | None => None
        end
  end.

(** A constructor that follows the standard wherever [url_standard]
    speaks.  The statements about resolved URLs hold for each of them. *)
Definition URL_conforms (URL_new : string → option string → option string)
  : Prop :=
  ∀ input base answer,
    url_standard input base = Some answer → URL_new input base = answer.

(** The constructor of the examples: it follows [url_standard], and
    throws where that says nothing. *)
Definition url_model (input : string) (base : option string) : option string :=
  match url_standard input base with
  | Some answer => answer
  | None => None
  end.

(** ** The chat payload on a heap of objects *)

(** The same converters with objects and arrays as cells of a heap, so
    that a message the caller passes and a message the adapter builds can
    be told apart by their addresses.  A computation takes the heap and
    returns the heap it leaves behind, also when it throws. *)
Module Heap.

(** Addresses are positions in the heap. *)
Abbreviation loc := nat.

Inductive val : Type :=
| VUndef
| VNull
| VBool (b : bool)
| VNum (n : Z)
| VStr (s : string)
| VRef (l : loc).

Inductive cell : Type :=
| CObj (fields : list (string * val))
| CArr (elems : list val).

Definition M (A : Type) : Type := list cell → result A * list cell.

#[global] Instance M_ret : MRet M := λ A a h, (Ok a, h).
#[global] Instance M_bind : MBind M := λ A B f m h,
  match m h with
  | (Ok a, h') => f a h'
  | (Throw e, h') => (Throw e, h')
  end.

Definition throw {A} (e : error) : M A := λ h, (Throw e, h).

(** An object or array literal: a new cell at the end of the heap. *)
Definition alloc (c : cell) : M val := λ h, (Ok (VRef (length h)), h ++ [c]).

Definition read (l : loc) : M cell := λ h,
  match h !! l with
  | Some c => (Ok c, h)
  | None => (Throw TypeError, h)
  end.

Definition write (l : loc) (c : cell) : M () := λ h, (Ok (), <[l:=c]> h).

Definition is_string (v : val) : bool :=
  match v with
  | VStr _ => true
  | _ => false
  end.

Definition str_eq (v : val) (s : string) : bool :=
  match v with
  | VStr t => bool_decide (t = s)
  | _ => false
  end.

Fixpoint field (fs : list (string * val)) (k : string) : val :=
  match fs with
  | [] => VUndef
  | (k', v) :: fs' => if bool_decide (k' = k) then v else field fs' k
  end.

Definition str_of_char (c : Ascii.ascii) : val := VStr (String c EmptyString).

Fixpoint at_key {A} (conv : A → val) (xs : list A) (i : nat) (k : string) : val :=
  match xs with
  | [] => VUndef
  | x :: xs' => if bool_decide (pretty i = k) then conv x else at_key conv xs' (S i) k
  end.

Fixpoint index_fields {A} (conv : A → val) (xs : list A) (i : nat)
  : list (string * val) :=
  match xs with
  | [] => []
  | x :: xs' => (pretty i, conv x) :: index_fields conv xs' (S i)
  end.

Definition array_like {A} (conv : A → val) (xs : list A) (k : string) : val :=
  if bool_decide (k = "length") then VNum (Z.of_nat (length xs))
  else at_key conv xs 0 k.

(** [v.k]. *)
Definition get (v : val) (k : string) : M val :=
  match v with
  | VUndef | VNull => throw TypeError
  | VRef l =>
      c ← read l;
      mret (match c with
            | CObj fs => field fs k
            | CArr es => array_like id es k
            end)
  | VStr s => mret (array_like str_of_char (String.list_ascii_of_string s) k)
  | _ => mret VUndef
  end.

(** The properties [{...v}] copies. *)
Definition own_fields (v : val) : M (list (string * val)) :=
  match v with
  | VRef l =>
      c ← read l;
      mret (match c with
            | CObj fs => fs
            | CArr es => index_fields id es 0
            end)
  | VStr s => mret (index_fields str_of_char (String.list_ascii_of_string s) 0)
  | _ => mret []
  end.

Definition spread (acc : list (string * val)) (v : val) : M (list (string * val)) :=
  fs ← own_fields v;
  mret (foldl (λ o kv, set_field o kv.1 kv.2) acc fs).

(** [v.map(f)]: the results go into a new array. *)
Definition array_map (f : val → M val) (v : val) : M val :=
  match v with
  | VRef l =>
      c ← read l;
      match c with
      | CArr es => rs ← mapM f es; alloc (CArr rs)
      | CObj _ => throw TypeError
      end
  | _ => throw TypeError
  end.

(** [v?.slice(0, n)] on an optional array. *)
Definition opt_slice0 (n : nat) (v : val) : M val :=
  match v with
  | VUndef | VNull => mret VUndef
  | VRef l =>
      c ← read l;
      match c with
      | CArr es => alloc (CArr (take n es))
      | CObj _ => throw TypeError
      end
  | VStr s =>
      mret (VStr (String.string_of_list_ascii
                    (take n (String.list_ascii_of_string s))))
  | _ => throw TypeError
  end.

(** [o.k = v].  The only assignment of the method is to an object
    literal of its own; named properties of arrays are not modelled. *)
Definition assign (o : val) (k : string) (v : val) : M () :=
  match o with
  | VUndef | VNull => throw TypeError
  | VRef l =>
      c ← read l;
      match c with
      | CObj fs => write l (CObj (set_field fs k v))
      | CArr _ => throw TypeError
      end
  | _ => mret ()
  end.

Definition convertPart (part : val) : M val :=
  type ← get part "type";
  text ← get part "text";
  imageUrl ← get part "imageUrl";
  fs ← spread [] imageUrl;
  image_url ← alloc (CObj (set_field fs "detail" (VStr "low")));
  alloc (CObj [ ("type", type); ("text", text); ("image_url", image_url) ]).

Definition _convertMessage (message : val) : M val :=
  content ← get message "content";
  if is_string content then mret message
  else
    parts ← array_map convertPart content;
    fs ← spread [] message;
    alloc (CObj (set_field fs "content" parts)).

Definition _convertArgs (cfg : Config) (options messages : val) : M val :=
  msgs ← array_map _convertMessage messages;
  model ← get options "model";
  max_tokens ← get options "maxTokens";
  temperature ← get options "temperature";
  top_p ← get options "topP";
  frequency_penalty ← get options "frequencyPenalty";
  presence_penalty ← get options "presencePenalty";
  stop ← (if jan_marker cfg
          then stop ← get options "stop"; opt_slice0 4 stop
          else get options "stop");
  alloc (CObj [ ("messages", msgs);
                ("model", model);
                ("max_tokens", max_tokens);
                ("temperature", temperature);
                ("top_p", top_p);
                ("frequency_penalty", frequency_penalty);
                ("presence_penalty", presence_penalty);
                ("stop", stop) ]).

Definition fix_content (m : val) : M val :=
  fs ← spread [] m;
  content ← get m "content";
  alloc (CObj (set_field fs "content"
                 (if str_eq content "" then VStr " " else content))).

(** Lines 178 to 186 of [_streamChat]: the object handed to
    [JSON.stringify]. *)
Definition chat_body (cfg : Config) (messages options : val) : M val :=
  args ← _convertArgs cfg options messages;
  fs ← spread [] args;
  body ← alloc (CObj (set_field fs "stream" (VBool true)));
  msgs ← get body "messages";
  fixed ← array_map fix_content msgs;
  assign body "messages" fixed;;
  mret body.

(** A reference to a cell that is not on the heap [h0]. *)
Definition fresh (h0 : list cell) (v : val) : Prop :=
  ∃ l, v = VRef l ∧ (length h0 ≤ l)%nat.

(** Running [m] on a heap that extends [h0] gives a heap that extends
    [h0], and a value, if one is returned, that satisfies [Q]. *)
Definition keeps {A} (h0 : list cell) (m : M A) (Q : A → Prop) : Prop :=
  ∀ h, h0 `prefix_of` h →
    h0 `prefix_of` (m h).2 ∧ ∀ a, (m h).1 = Ok a → Q a.

(** The tree a value stands for: [denotes P h v j] when reading [v] on
the heap [h], through cells at addresses in [P] only, gives [j]. *)
Fixpoint denotes (P : loc → Prop) (h : list cell) (v : val) (j : js)
    {struct j} : Prop :=
  match j with
  | JUndef => v = VUndef
  | JNull => v = VNull
  | JBool b => v = VBool b
  | JNum n => v = VNum n
  | JStr s => v = VStr s
  | JArr es =>
      ∃ l vs, v = VRef l ∧ P l ∧ h !! l = Some (CArr vs) ∧
        (fix all (es : list js) (vs : list val) {struct es} : Prop :=
           match es, vs with
           | [], [] => True
           | e :: es, v :: vs => denotes P h v e ∧ all es vs
           | _, _ => False
           end) es vs
  | JObj fs =>
      ∃ l hfs, v = VRef l ∧ P l ∧ h !! l = Some (CObj hfs) ∧
        (fix all (fs : list (string * js)) (hfs : list (string * val))
             {struct fs} : Prop :=
           match fs, hfs with
           | [], [] => True
           | (k, e) :: fs, (k', v) :: hfs =>
               k' = k ∧ denotes P h v e ∧ all fs hfs
           | _, _ => False
           end) fs hfs
  end.

Definition fields_denote (P : loc → Prop) (h : list cell)
    (hfs : list (string * val)) (fs : list (string * js)) : Prop :=
  Forall2 (λ hkv kv, hkv.1 = kv.1 ∧ denotes P h hkv.2 kv.2) hfs fs.

(** Every address from the end of the heap on is in [P]. *)
Definition admits_new (P : loc → Prop) (h : list cell) : Prop :=
  ∀ l, (length h ≤ l)%nat → P l.

(** When the pure computation [r] returns, so does [m] on the heap [h];
it only extends the heap, and the two results are related. *)
Definition simulates {A B} (R : list cell → A → B → Prop) (h : list cell)
    (m : M A) (r : result B) : Prop :=
  ∀ b, r = Ok b → ∃ a h', m h = (Ok a, h') ∧ h `prefix_of` h' ∧ R h' a b.

End Heap.

(** ** Vocabulary of the statements *)

(** The delta of the first choice of an event, as the chat loop reads it. *)
Definition first_delta (value : js) : js :=
  opt_get (opt_item (opt_get value "choices") 0) "delta".

(** The text of the first choice of an event, as the legacy loop reads it. *)
Definition first_text (value : js) : js :=
  opt_get (opt_item (opt_get value "choices") 0) "text".

(** What each loop makes of one event. *)
Definition chat_emit (value : js) : option js :=
  if truthy (opt_get (first_delta value) "content")
  then Some (first_delta value) else None.

Definition legacy_emit (value : js) : option js :=
  if truthy (first_text value) &&
     negb (str_eq (opt_get value "finish_reason") "eos")
  then Some (first_text value) else None.

(** The condition under which [_streamChat] takes its legacy branch. *)
Definition takes_legacy_path (cfg : Config) (options : CompletionOptions) : bool :=
  negb (includes CHAT_ONLY_MODELS (model options)) &&
  (includes NON_CHAT_MODELS (model options) || useLegacyCompletionsEndpoint cfg).

(** [needle] occurs in [hay]. *)
Definition occurs_in (needle hay : string) : Prop :=
  ∃ before after, hay = before +:+ needle +:+ after.

(** Modelled from the spec: the shape of a ChatMessage (section 3), an
    object whose content is a string or an ordered sequence of part
    objects. *)
Definition is_object (v : js) : bool :=
  match v with
  | JObj _ => true
  | _ => false
  end.

Definition is_ChatMessage (m : js) : bool :=
  match m with
  | JObj fs =>
      match field fs "content" with
      | JStr _ => true
      | JArr parts => forallb is_object parts
      | _ => false
      end
  | _ => false
  end.

(** What [convertPart] makes of a part: type and text are kept, and an
    [image_url] object with [detail: "low"] is attached. *)
Definition converted_part (part part' : js) : Prop :=
  prop part' "type" = prop part "type" ∧
  prop part' "text" = prop part "text" ∧
  ∃ image_url, prop part' "image_url" = JObj image_url ∧
               field image_url "detail" = JStr "low".

(** The content of the wire message [w] that stands for the message [m]
    of the caller: a string content goes out as it is, except that the
    empty string goes out as a single space; a multi-part content goes
    out converted part by part. *)
Definition transmitted (m w : js) : Prop :=
  match prop m "content" with
  | JStr s => prop w "content" = JStr (if bool_decide (s = "") then " " else s)
  | JArr parts =>
      ∃ parts', prop w "content" = JArr parts' ∧
                Forall2 converted_part parts parts'
  | _ => True
  end.

(** The options object on the heap: it stands for an object with the
    fields of [options]. *)
Definition options_on (P : Heap.loc → Prop) (h : list Heap.cell)
    (v : Heap.val) (options : CompletionOptions) : Prop :=
  ∃ fs, Heap.denotes P h v (JObj fs) ∧
    field fs "model" = JStr (model options) ∧
    field fs "maxTokens" = maxTokens options ∧
    field fs "temperature" = temperature options ∧
    field fs "topP" = topP options ∧
    field fs "frequencyPenalty" = frequencyPenalty options ∧
    field fs "presencePenalty" = presencePenalty options ∧
    field fs "stop" = opt_strings (stop options).

(** [xs.join("")] of strings. *)
Definition concat_strings (xs : list string) : string :=
  foldr String.append EmptyString xs.

(** ** Sample data *)

Module Sample.

Definition cfg : Config :=
  {| apiBase := Some "https://x/"; apiKey := Some "k"; apiType := None;
     engine := None; apiVersion := None;
     useLegacyCompletionsEndpoint := false |}.

Definition options (model : string) : CompletionOptions :=
  {| model := model; maxTokens := JUndef; temperature := JUndef;
     topP := JUndef; frequencyPenalty := JUndef; presencePenalty := JUndef;
     stop := None |}.

(** A base on the port of a self-hosted runtime, and six stop words. *)
Definition jan_cfg : Config :=
  {| apiBase := Some "http://localhost:1337/v1/"; apiKey := None;
     apiType := None; engine := None; apiVersion := None;
     useLegacyCompletionsEndpoint := false |}.

Definition six_stops : CompletionOptions :=
  {| model := "gpt-4"; maxTokens := JUndef; temperature := JUndef;
     topP := JUndef; frequencyPenalty := JUndef; presencePenalty := JUndef;
     stop := Some ["a"; "b"; "c"; "d"; "e"; "f"] |}.

Definition hi : js := JObj [ ("role", JStr "user"); ("content", JStr "hi") ].

(** The deployment of the specification's example. *)
Definition azure_cfg : Config :=
  {| apiBase := Some "https://x/"; apiKey := Some "k";
     apiType := Some "azure"; engine := Some "gpt4dep";
     apiVersion := Some "2023-05-15";
     useLegacyCompletionsEndpoint := false |}.

(** A base whose path does not end with a slash. *)
Definition v1_cfg : Config :=
  {| apiBase := Some "https://x/v1"; apiKey := Some "k"; apiType := None;
     engine := None; apiVersion := None;
     useLegacyCompletionsEndpoint := false |}.

(** Messages: an empty content, and a multi-part content of one text
    part and one image part. *)
Definition empty : js := JObj [ ("role", JStr "user"); ("content", JStr "") ].

Definition text_part : js := JObj [ ("type", JStr "text"); ("text", JStr "a") ].

Definition image_part : js :=
  JObj [ ("type", JStr "image"); ("imageUrl", JObj [ ("url", JStr "u") ]) ].

Definition multi : js :=
  JObj [ ("role", JStr "user"); ("content", JArr [ text_part; image_part ]) ].

(** A server that answers every request with the same events. *)
Definition server (events : list js) : Request → result Response :=
  λ _, Ok {| events := events; failure := None |}.

(** [{choices: [{text: "x", finish_reason: "eos"}]}]. *)
Definition choice_eos : js :=
  JObj [ ("choices",
          JArr [ JObj [ ("text", JStr "x"); ("finish_reason", JStr "eos") ] ]) ].

(** [{choices: [{text: "y", finish_reason: null}]}]. *)
Definition choice_open : js :=
  JObj [ ("choices",
          JArr [ JObj [ ("text", JStr "y"); ("finish_reason", JNull) ] ]) ].

(** [{choices: [{text: "x"}], finish_reason: "eos"}]. *)
Definition event_eos : js :=
  JObj [ ("choices", JArr [ JObj [ ("text", JStr "x") ] ]);
         ("finish_reason", JStr "eos") ].

(** [{choices: [{delta: {role: "assistant", content: s}}]}]. *)
Definition delta_event (s : string) : js :=
  JObj [ ("choices",
          JArr [ JObj [ ("delta",
                         JObj [ ("role", JStr "assistant");
                                ("content", JStr s) ]) ] ]) ].

(** The caller's two messages and its options as heap objects. *)
Definition heap : list Heap.cell :=
  [ Heap.CObj [ ("role", Heap.VStr "user"); ("content", Heap.VStr "") ];
    Heap.CObj [ ("role", Heap.VStr "user"); ("content", Heap.VStr "hi") ];
    Heap.CArr [ Heap.VRef 0%nat; Heap.VRef 1%nat ];
    Heap.CObj [ ("model", Heap.VStr "gpt-4") ] ].

End Sample.

(** ** The model lister *)

Section Models.

Variable URL_new : string → option string → option string.

(** [this.fetch] followed by [response.json()]. *)
Variable fetch_json : Request → result js.

Definition listModels (cfg : Config) : result js :=
  href ← _getEndpoint URL_new cfg Models;
  data ← fetch_json {| url := href; method := "GET"; headers := auth_headers cfg;
                       body := None |};
  models ← get data "data";
  array_map (λ m, get m "id") models.

End Models.

(** ** Vocabulary of the further statements *)

(** The messages [_convertMessage] accepts: an object, or any value but
    [null] and [undefined], whose content is a string or an array without
    [null] and [undefined] entries. *)
Definition convertible (m : js) : bool :=
  negb (nullish m) &&
  match prop m "content" with
  | JStr _ => true
  | JArr parts => forallb (λ part, negb (nullish part)) parts
  | _ => false
  end.

(** Modelled from the spec: the shape of a content (section 3), a string
    or an ordered sequence of ContentParts, each an object that is a text
    part [{type: "text", text}] with a string for a text, or a part of
    another type. *)
Definition is_ContentPart (part : js) : bool :=
  is_object part &&
  (negb (str_eq (prop part "type") "text") || is_string (prop part "text")).

Definition is_MessageContent (content : js) : bool :=
  match content with
  | JStr _ => true
  | JArr parts => forallb is_ContentPart parts
  | _ => false
  end.

(** The bodies [listModels] accepts, and the identifiers it reads off
    them. *)
Definition is_model_list (data : js) : bool :=
  negb (nullish data) &&
  match prop data "data" with
  | JArr ms => forallb (λ m, negb (nullish m)) ms
  | _ => false
  end.

Definition model_ids (data : js) : list js :=
  match prop data "data" with
  | JArr ms => (λ m, prop m "id") <$> ms
  | _ => []
  end.

(** The request of [_streamChat] on the route it takes: the endpoint,
    the payload, and what the route's loop makes of one event. *)
Definition route_endpoint (cfg : Config) (options : CompletionOptions) : Endpoint :=
  if takes_legacy_path cfg options then Completions else ChatCompletions.

Definition route_body (sep : string) (cfg : Config) (messages : list js)
    (options : CompletionOptions) : result (list (string * js)) :=
  if takes_legacy_path cfg options
  then legacy_body cfg (legacy_prompt sep messages) options
  else chat_body cfg messages options.

Definition route_emit (cfg : Config) (options : CompletionOptions)
    (value : js) : option js :=
  if takes_legacy_path cfg options
  then assistant_chunk <$> legacy_emit value
  else chat_emit value.

(** The option fields both request payloads carry. *)
Definition OPTION_FIELDS : list string :=
  [ "model"; "max_tokens"; "temperature"; "top_p"; "frequency_penalty";
    "presence_penalty"; "stop" ].

(** Further sample data. *)
Module Cases.

(** An image part that asks for high detail. *)
Definition detailed_image : js :=
  JObj [ ("type", JStr "imageUrl");
         ("imageUrl", JObj [ ("url", JStr "u"); ("detail", JStr "high") ]) ].

(** A message whose content is neither a string nor an array. *)
Definition no_content : js := JObj [ ("role", JStr "user") ].

(** The body of a model listing; the second record has no id. *)
Definition listing : js :=
  JObj [ ("object", JStr "list");
         ("data", JArr [ JObj [ ("id", JStr "gpt-4") ];
                         JObj [ ("object", JStr "model") ] ]) ].

Definition json_server (data : js) : Request → result js := λ _, Ok data.

(** A configuration without an API base. *)
Definition no_base_cfg : Config :=
  {| apiBase := None; apiKey := Some "k"; apiType := None; engine := None;
     apiVersion := None; useLegacyCompletionsEndpoint := false |}.

End Cases.

(** * Properties *)

(** ** Property access *)

Lemma get_not_nullish (v : js) (k : string) :
  nullish v = false → get v k = Ok (prop v k).
Proof. unfold get. by intros ->. Qed.

Lemma get_item_not_nullish (v : js) (i : nat) :
  nullish v = false → get_item v i = Ok (item v i).
Proof. unfold get_item. by intros ->. Qed.

Lemma opt_get_not_nullish (v : js) (k : string) :
  nullish v = false → opt_get v k = prop v k.
Proof. unfold opt_get. by intros ->. Qed.

Lemma truthy_not_nullish (v : js) : truthy v = true → nullish v = false.
Proof. by destruct v. Qed.

Lemma opt_get_defined (v : js) (k : string) :
  nullish (opt_get v k) = false → nullish v = false.
Proof. unfold opt_get. by destruct (nullish v). Qed.

Lemma opt_item_defined (v : js) (i : nat) :
  nullish (opt_item v i) = false → nullish v = false.
Proof. unfold opt_item. by destruct (nullish v). Qed.

Lemma truthy_string (s : string) : truthy (JStr s) = true ↔ s ≠ "".
Proof.
  simpl. case_bool_decide; simpl; split; intros; try done.
Qed.

(** ** The loops over the event stream *)

(** What a loop body that never throws makes of a list of values. *)
Lemma for_await_total {A} (body : js → result (option A)) (emit : js → option A)
    (values : list js) (failure : option error) :
  Forall (λ value, body value = Ok (emit value)) values →
  for_await body values failure = Run (omap emit values) failure.
Proof.
  induction 1 as [|value rest Hbody _ IH]; [done|].
  simpl. rewrite Hbody, IH. by destruct (emit value).
Qed.

Lemma for_await_stops {A} (body : js → result (option A)) (emit : js → option A)
    (before after : list js) (value : js) (failure : option error) (e : error) :
  Forall (λ value, body value = Ok (emit value)) before →
  body value = Throw e →
  for_await body (before ++ value :: after) failure =
    Run (omap emit before) (Some e).
Proof.
  intros Hbefore Hvalue. induction Hbefore as [|x before Hx _ IH]; simpl.
  - by rewrite Hvalue.
  - rewrite Hx, IH. by destruct (emit x).
Qed.

Lemma chat_event_defined (value : js) :
  nullish value = false → chat_event value = Ok (chat_emit value).
Proof.
  intros Hvalue. unfold chat_event, chat_emit, first_delta.
  rewrite (get_not_nullish _ _ Hvalue), (opt_get_not_nullish _ _ Hvalue). simpl.
  destruct (truthy _) eqn:Hcontent; [|done].
  pose proof (opt_get_defined _ _ (truthy_not_nullish _ Hcontent)) as Hdelta.
  pose proof (opt_get_defined _ _ Hdelta) as Hchoice.
  pose proof (opt_item_defined _ _ Hchoice) as Hchoices.
  rewrite (get_item_not_nullish _ _ Hchoices). simpl.
  unfold opt_item in *. rewrite Hchoices in *.
  rewrite (get_not_nullish _ _ Hchoice). simpl.
  by rewrite (opt_get_not_nullish _ _ Hchoice).
Qed.

Lemma legacy_event_defined (value : js) :
  nullish value = false → legacy_event value = Ok (legacy_emit value).
Proof.
  intros Hvalue. unfold legacy_event, legacy_emit, first_text.
  rewrite !(get_not_nullish _ _ Hvalue), !(opt_get_not_nullish value _ Hvalue).
  simpl.
  destruct (truthy _) eqn:Htext; [|done]. simpl.
  destruct (negb _); [|done].
  pose proof (opt_get_defined _ _ (truthy_not_nullish _ Htext)) as Hchoice.
  pose proof (opt_item_defined _ _ Hchoice) as Hchoices.
  rewrite (get_item_not_nullish _ _ Hchoices). simpl.
  unfold opt_item in *. rewrite Hchoices in *.
  rewrite (get_not_nullish _ _ Hchoice). simpl.
  by rewrite (opt_get_not_nullish _ _ Hchoice).
Qed.

(** An event that is [null] makes either loop throw: the first member
    access of the condition is not an optional one. *)
Lemma nullish_event_throws (value : js) :
  nullish value = true →
  chat_event value = Throw TypeError ∧ legacy_event value = Throw TypeError.
Proof. by destruct value. Qed.

Lemma chat_emit_not_nullish (value chunk : js) :
  chat_emit value = Some chunk → nullish chunk = false.
Proof.
  unfold chat_emit. destruct (truthy _) eqn:Hcontent; [|done].
  intros [= <-].
  exact (opt_get_defined _ _ (truthy_not_nullish _ Hcontent)).
Qed.

(** A chunk the chat loop yields is never [null] or [undefined], whatever
    the event. *)
Lemma chat_event_not_nullish (value chunk : js) :
  chat_event value = Ok (Some chunk) → nullish chunk = false.
Proof.
  destruct (nullish value) eqn:Hvalue.
  - by destruct (nullish_event_throws _ Hvalue) as [-> _].
  - rewrite (chat_event_defined _ Hvalue). intros [= H].
    by apply chat_emit_not_nullish in H.
Qed.

Lemma chat_emit_iff (value chunk : js) :
  chat_emit value = Some chunk ↔
  chunk = first_delta value ∧ nullish (first_delta value) = false ∧
  truthy (prop (first_delta value) "content") = true.
Proof.
  unfold chat_emit. split.
  - destruct (truthy _) eqn:Hcontent; [|done]. intros [= <-].
    pose proof (opt_get_defined _ _ (truthy_not_nullish _ Hcontent)) as Hdelta.
    by rewrite <-(opt_get_not_nullish _ _ Hdelta).
  - intros (-> & Hdelta & Hcontent).
    by rewrite (opt_get_not_nullish _ _ Hdelta), Hcontent.
Qed.

Lemma legacy_emit_iff (value chunk : js) :
  legacy_emit value = Some chunk ↔
  chunk = first_text value ∧ truthy (first_text value) = true ∧
  opt_get value "finish_reason" ≠ JStr "eos".
Proof.
  unfold legacy_emit.
  assert (str_eq (opt_get value "finish_reason") "eos" = true ↔
          opt_get value "finish_reason" = JStr "eos") as Heos.
  { destruct (opt_get value "finish_reason"); simpl; try done.
    case_bool_decide; split; intros; simplify_eq; done. }
  split.
  - destruct (truthy _); [|done]. simpl.
    destruct (str_eq _ _) eqn:E; [done|]. intros [= <-].
    repeat split. intros H. apply Heos in H. congruence.
  - intros (-> & -> & Hreason). simpl.
    destruct (str_eq _ _) eqn:E; [|done]. destruct Hreason. by apply Heos.
Qed.

(** ** The dispatcher *)

Section Dispatcher.

Variable URL_new : string → option string → option string.
Variable fetch : Request → result Response.
Variable part_separator : string.

(** C1.  [_streamChat] routes by priority: a model of [CHAT_ONLY_MODELS]
    takes the chat path whatever the legacy flag says; otherwise a model
    of [NON_CHAT_MODELS], or the flag, takes the legacy path; otherwise
    the chat path is taken. *)
Theorem streamChat_routing (cfg : Config) (messages : list js)
    (options : CompletionOptions) :
  _streamChat URL_new fetch part_separator cfg messages options =
    if includes CHAT_ONLY_MODELS (model options)
    then chat_path URL_new fetch cfg messages options
    else if includes NON_CHAT_MODELS (model options) ||
            useLegacyCompletionsEndpoint cfg
         then legacy_path URL_new fetch part_separator cfg messages options
         else chat_path URL_new fetch cfg messages options.
Proof.
  unfold _streamChat.
  destruct (includes CHAT_ONLY_MODELS (model options)); [done|].
  by destruct (includes NON_CHAT_MODELS (model options) || _).
Qed.

(** Once the request is answered, the chat path is the chat loop over
    the events of the response. *)
Lemma chat_path_answered (cfg : Config) (messages : list js)
    (options : CompletionOptions) (payload : list (string * js))
    (response : Response) :
  chat_body cfg messages options = Ok payload →
  post URL_new fetch cfg ChatCompletions payload = Ok response →
  chat_path URL_new fetch cfg messages options =
    for_await chat_event (events response) (failure response).
Proof.
  intros Hbody Hpost. unfold chat_path.
  rewrite Hbody. simpl. by rewrite Hpost.
Qed.

Lemma legacy_body_ok (cfg : Config) (prompt : js) (options : CompletionOptions) :
  ∃ payload, legacy_body cfg prompt options = Ok payload ∧
    field payload "prompt" = prompt ∧
    field payload "messages" = JUndef ∧
    field payload "stream" = JBool true.
Proof. eexists. split; [reflexivity|]. done. Qed.

Lemma legacy_stream_answered (cfg : Config) (prompt : js)
    (options : CompletionOptions) (payload : list (string * js))
    (response : Response) :
  legacy_body cfg prompt options = Ok payload →
  post URL_new fetch cfg Completions payload = Ok response →
  _legacystreamComplete URL_new fetch cfg prompt options =
    for_await legacy_event (events response) (failure response).
Proof.
  intros Hbody Hpost. unfold _legacystreamComplete.
  rewrite Hbody. simpl. by rewrite Hpost.
Qed.

End Dispatcher.

(** ** The event loops *)

(** C8, as the code has it.  On the chat path, once the request is
    answered, [_streamChat] handles every event that is not [null] (nor
    [undefined]) without an error: it yields the first-choice delta when
    that delta exists and its content is truthy, that is none of
    [undefined], [null], [false], [0] and the empty string, and skips the
    event otherwise.  On a [null] event the loop throws a TypeError: the
    stream ends there, after the chunks of the events before it. *)
Theorem chat_events_emitted
    (URL_new : string → option string → option string)
    (fetch : Request → result Response) (sep : string) (cfg : Config)
    (messages : list js) (options : CompletionOptions)
    (payload : list (string * js)) (response : Response) :
  takes_legacy_path cfg options = false →
  chat_body cfg messages options = Ok payload →
  post URL_new fetch cfg ChatCompletions payload = Ok response →
  (Forall (λ value, nullish value = false) (events response) →
   _streamChat URL_new fetch sep cfg messages options =
     Run (omap chat_emit (events response)) (failure response)) ∧
  (∀ before value after,
     events response = before ++ value :: after →
     Forall (λ value, nullish value = false) before →
     nullish value = true →
     _streamChat URL_new fetch sep cfg messages options =
       Run (omap chat_emit before) (Some TypeError)) ∧
  (∀ value,
     chat_event value =
       if nullish value then Throw TypeError else Ok (chat_emit value)) ∧
  (∀ value chunk, chat_emit value = Some chunk ↔
     chunk = first_delta value ∧ nullish (first_delta value) = false ∧
     truthy (prop (first_delta value) "content") = true) ∧
  (∀ value, chat_emit value = None ↔
     truthy (opt_get (first_delta value) "content") = false) ∧
  (∀ content, truthy content = true ↔
     content ≠ JUndef ∧ content ≠ JNull ∧ content ≠ JBool false ∧
     content ≠ JNum 0 ∧ content ≠ JStr "").
Proof.
  intros Hroute Hbody Hpost.
  assert (_streamChat URL_new fetch sep cfg messages options =
          for_await chat_event (events response) (failure response)) as ->.
  { unfold _streamChat. fold (takes_legacy_path cfg options). rewrite Hroute.
    by apply chat_path_answered with (payload := payload). }
  split_and!.
  - intros Hevents. apply for_await_total.
    eapply Forall_impl; [exact Hevents|]. apply chat_event_defined.
  - intros before value after -> Hbefore Hvalue.
    apply for_await_stops.
    + eapply Forall_impl; [exact Hbefore|]. apply chat_event_defined.
    + by apply nullish_event_throws.
  - intros value. destruct (nullish value) eqn:Hvalue.
    + by apply nullish_event_throws.
    + by apply chat_event_defined.
  - apply chat_emit_iff.
  - intros value. unfold chat_emit. by destruct (truthy _).
  - intros [| |[]|n|s|es|fs]; simpl; try (split; [done|by intros (? & ? & ? & ? & ?)]);
      try (split; [intros; by split_and!|done]).
    + destruct (Z.eqb_spec n 0) as [->|Hn]; simpl.
      * split; [done|]. by intros (_ & _ & _ & ? & _).
      * split; [|done]. intros _. split_and!; try done. by intros [= ->].
    + case_bool_decide as Hs; simpl.
      * subst s. split; [done|]. by intros (_ & _ & _ & _ & ?).
      * split; [|done]. intros _. split_and!; try done. by intros [= ->].
Qed.

(** Four events: a delta with content, an empty delta, an event without
    choices and an empty object; only the first is yielded. *)
Lemma chat_events_emitted_witness :
  _streamChat url_model
    (Sample.server [ Sample.delta_event "a"; Sample.delta_event "";
                     JObj [ ("choices", JArr []) ]; JObj [] ])
    "" Sample.cfg [Sample.hi] (Sample.options "gpt-4") =
  Run [ JObj [ ("role", JStr "assistant"); ("content", JStr "a") ] ] None.
Proof.
  exact (proj1 (chat_events_emitted url_model
                  (Sample.server [ Sample.delta_event "a"; Sample.delta_event "";
                                   JObj [ ("choices", JArr []) ]; JObj [] ])
                  "" Sample.cfg [Sample.hi] (Sample.options "gpt-4")
                  _ _ eq_refl eq_refl eq_refl)
               ltac:(by repeat constructor)).
Defined.

(** C8, as the spec has it, fails: a [null] event is not skipped, the
    stream ends with a TypeError; and a delta whose content is the empty
    array is yielded. *)
Lemma chat_null_event_is_an_error :
  _streamChat url_model
    (Sample.server [ Sample.delta_event "a"; JNull; Sample.delta_event "b" ])
    "" Sample.cfg [Sample.hi] (Sample.options "gpt-4") =
  Run [ JObj [ ("role", JStr "assistant"); ("content", JStr "a") ] ]
      (Some TypeError) ∧
  _streamChat url_model
    (Sample.server
       [ JObj [ ("choices", JArr [ JObj [ ("delta",
                                           JObj [ ("content", JArr []) ]) ] ]) ] ])
    "" Sample.cfg [Sample.hi] (Sample.options "gpt-4") =
  Run [ JObj [ ("content", JArr []) ] ] None.
Proof. by vm_compute. Qed.

(** C2, as the code has it.  Once its request is answered, the legacy
    streamer handles every event without an error (the events are JSON
    objects; any value but [null] would do) and yields exactly the
    first-choice texts that are truthy in events whose own
    [finish_reason] is not ["eos"]; the [finish_reason] of a choice is
    never read. *)
Theorem legacy_events_emitted
    (URL_new : string → option string → option string)
    (fetch : Request → result Response) (cfg : Config) (prompt : js)
    (options : CompletionOptions) (payload : list (string * js))
    (response : Response) :
  legacy_body cfg prompt options = Ok payload →
  post URL_new fetch cfg Completions payload = Ok response →
  Forall (λ value, nullish value = false) (events response) →
  _legacystreamComplete URL_new fetch cfg prompt options =
    Run (omap legacy_emit (events response)) (failure response) ∧
  Forall (λ value, legacy_event value = Ok (legacy_emit value))
    (events response) ∧
  (∀ value chunk, legacy_emit value = Some chunk ↔
     chunk = first_text value ∧ truthy (first_text value) = true ∧
     opt_get value "finish_reason" ≠ JStr "eos") ∧
  legacy_emit Sample.choice_open = Some (JStr "y") ∧
  legacy_emit Sample.event_eos = None ∧
  legacy_emit Sample.choice_eos = Some (JStr "x").
Proof.
  intros Hbody Hpost Hevents.
  assert (Forall (λ value, legacy_event value = Ok (legacy_emit value))
            (events response)) as Hdefined.
  { eapply Forall_impl; [exact Hevents|]. apply legacy_event_defined. }
  split_and!; try done.
  - rewrite (legacy_stream_answered _ _ _ _ _ _ _ Hbody Hpost).
    by apply for_await_total.
  - apply legacy_emit_iff.
Qed.

Lemma legacy_events_emitted_witness :
  _legacystreamComplete url_model
    (Sample.server [ Sample.choice_open; Sample.event_eos; JObj [] ])
    Sample.cfg (JStr "p") (Sample.options "davinci") =
  Run [ JStr "y" ] None.
Proof.
  exact (proj1 (legacy_events_emitted url_model
                  (Sample.server [ Sample.choice_open; Sample.event_eos; JObj [] ])
                  Sample.cfg (JStr "p") (Sample.options "davinci")
                  _ _ eq_refl eq_refl ltac:(by repeat constructor))).
Defined.

(** C2, as the spec has it, fails: the event
    [{choices: [{text: "x", finish_reason: "eos"}]}] does yield a chunk. *)
Lemma legacy_choice_eos_is_emitted :
  yielded (_legacystreamComplete url_model (Sample.server [Sample.choice_eos])
             Sample.cfg (JStr "p") (Sample.options "davinci")) = [JStr "x"] ∧
  yielded (_legacystreamComplete url_model (Sample.server [Sample.choice_eos])
             Sample.cfg (JStr "p") (Sample.options "davinci")) ≠ [].
Proof. by vm_compute. Qed.

(** ** Chunks and completions *)

Lemma for_await_yields {A} (P : A → Prop) (body : js → result (option A))
    (values : list js) (failure : option error) :
  (∀ value a, body value = Ok (Some a) → P a) →
  Forall P (yielded (for_await body values failure)).
Proof.
  intros Hbody. induction values as [|value rest IH]; simpl; [done|].
  destruct (body value) as [[a|]|e] eqn:Hvalue; simpl; eauto.
Qed.

Lemma gen_bind_yields {A B} (P : B → Prop) (m : result A) (k : A → run B) :
  (∀ a, Forall P (yielded (k a))) → Forall P (yielded (gen_bind m k)).
Proof. destruct m; simpl; eauto. Qed.

Lemma string_app_cons (c : ascii) (s t : string) :
  String c s +:+ t = String c (s +:+ t).
Proof. reflexivity. Qed.

Lemma string_app_nil_r (s : string) : s +:+ "" = s.
Proof.
  induction s as [|c s IH]; [done|]. by rewrite string_app_cons, IH.
Qed.

Lemma string_app_assoc (s t u : string) : (s +:+ t) +:+ u = s +:+ (t +:+ u).
Proof.
  induction s as [|c s IH]; [done|]. by rewrite !string_app_cons, IH.
Qed.

Lemma accumulate_concat (completion : string) (chunks : list js) :
  Forall (λ chunk, nullish chunk = false) chunks →
  Forall (λ chunk, to_string_throws (prop chunk "content") = false) chunks →
  accumulate completion chunks =
    Ok (completion +:+
        concat_strings ((λ chunk, to_string (prop chunk "content")) <$> chunks)).
Proof.
  intros Hchunks Hcontents. revert completion.
  induction Hchunks as [|chunk rest Hchunk _ IH]; intros completion; simpl.
  - by rewrite string_app_nil_r.
  - apply Forall_cons in Hcontents as [Hcontent Hcontents].
    rewrite (get_not_nullish _ _ Hchunk). simpl.
    unfold ToString. rewrite Hcontent. simpl.
    by rewrite (IH Hcontents), string_app_assoc.
Qed.

(** Chunks whose contents are the strings [contents]. *)
Lemma string_contents (chunks : list js) (contents : list string) :
  (λ chunk, prop chunk "content") <$> chunks = JStr <$> contents →
  Forall (λ chunk, to_string_throws (prop chunk "content") = false) chunks ∧
  (λ chunk, to_string (prop chunk "content")) <$> chunks = contents.
Proof.
  revert contents. induction chunks as [|chunk chunks IH]; intros [|s contents];
    try done.
  rewrite !fmap_cons. intros [= Hchunk Hchunks].
  destruct (IH _ Hchunks) as [Hall Heq]. split.
  - constructor; [by rewrite Hchunk|done].
  - by rewrite Hchunk, Heq.
Qed.

Section Chunks.

Variable URL_new : string → option string → option string.
Variable fetch : Request → result Response.
Variable part_separator : string.

(** No chunk of [_streamChat] is [null] or [undefined]. *)
Lemma streamChat_chunks_defined (cfg : Config) (messages : list js)
    (options : CompletionOptions) :
  Forall (λ chunk, nullish chunk = false)
    (yielded (_streamChat URL_new fetch part_separator cfg messages options)).
Proof.
  unfold _streamChat. destruct (_ && _).
  - unfold legacy_path, run_map. simpl. by apply Forall_fmap, Forall_true.
  - unfold chat_path. apply gen_bind_yields. intros payload.
    apply gen_bind_yields. intros response.
    apply for_await_yields. intros value chunk.
    apply chat_event_not_nullish.
Qed.

(** C9.  On the legacy path the dispatcher yields, for each text
    fragment of the legacy streamer and in the same order, the message
    [{role: "assistant", content: fragment}], and ends as the legacy
    streamer ends. *)
Theorem legacy_chunks_are_assistant_messages (cfg : Config)
    (messages : list js) (options : CompletionOptions) :
  includes CHAT_ONLY_MODELS (model options) = false →
  includes NON_CHAT_MODELS (model options) ||
    useLegacyCompletionsEndpoint cfg = true →
  let fragments :=
    _legacystreamComplete URL_new fetch cfg
      (legacy_prompt part_separator messages) options in
  let chunks := _streamChat URL_new fetch part_separator cfg messages options in
  thrown chunks = thrown fragments ∧
  Forall2 (λ chunk fragment,
             chunk = JObj [ ("role", JStr "assistant"); ("content", fragment) ] ∧
             prop chunk "role" = JStr "assistant" ∧
             prop chunk "content" = fragment)
          (yielded chunks) (yielded fragments).
Proof.
  intros Hchat Hlegacy. simpl.
  unfold _streamChat. rewrite Hchat, Hlegacy. simpl.
  split; [done|].
  apply Forall2_fmap_l, Forall_Forall2_diag, Forall_true. done.
Qed.

(** C7.  When the contents of the chunks that [_streamChat] yields for
    the single user message holding the prompt are strings, [_complete]
    returns their concatenation, in order; it throws what that stream
    throws. *)
Theorem complete_concatenates (cfg : Config) (prompt : string)
    (options : CompletionOptions) (contents : list string) :
  let chunks :=
    _streamChat URL_new fetch part_separator cfg
      [ JObj [ ("role", JStr "user"); ("content", JStr prompt) ] ] options in
  (λ chunk, prop chunk "content") <$> yielded chunks = JStr <$> contents →
  _complete URL_new fetch part_separator cfg prompt options =
    match thrown chunks with
    | None => Ok (concat_strings contents)
    | Some e => Throw e
    end.
Proof.
  simpl. intros Hcontents. unfold _complete, user_message.
  destruct (string_contents _ _ Hcontents) as [Hall Heq].
  rewrite accumulate_concat; [|apply streamChat_chunks_defined|exact Hall].
  by rewrite Heq.
Qed.

End Chunks.

Lemma legacy_chunks_are_assistant_messages_witness :
  let fragments :=
    _legacystreamComplete url_model (Sample.server [Sample.choice_open])
      Sample.cfg (legacy_prompt "" [Sample.hi]) (Sample.options "davinci") in
  let chunks :=
    _streamChat url_model (Sample.server [Sample.choice_open]) ""
      Sample.cfg [Sample.hi] (Sample.options "davinci") in
  yielded fragments = [JStr "y"] ∧
  thrown chunks = thrown fragments ∧
  Forall2 (λ chunk fragment,
             chunk = JObj [ ("role", JStr "assistant"); ("content", fragment) ] ∧
             prop chunk "role" = JStr "assistant" ∧
             prop chunk "content" = fragment)
          (yielded chunks) (yielded fragments).
Proof.
  split; [reflexivity|].
  exact (legacy_chunks_are_assistant_messages url_model
           (Sample.server [Sample.choice_open]) "" Sample.cfg [Sample.hi]
           (Sample.options "davinci") eq_refl eq_refl).
Defined.

(** Over a stream that yields the chunks "a", "b" and "c", [_complete]
    returns "abc", on the chat path and on the legacy path. *)
Lemma complete_abc :
  _complete url_model
    (Sample.server [ Sample.delta_event "a"; Sample.delta_event "b";
                     Sample.delta_event "c" ])
    "" Sample.cfg "hi" (Sample.options "gpt-4") = Ok "abc" ∧
  _complete url_model
    (Sample.server [ Sample.choice_open; Sample.event_eos; Sample.choice_eos ])
    "" Sample.cfg "hi" (Sample.options "davinci") = Ok "yx".
Proof.
  split.
  - exact (complete_concatenates url_model
             (Sample.server [ Sample.delta_event "a"; Sample.delta_event "b";
                              Sample.delta_event "c" ])
             "" Sample.cfg "hi" (Sample.options "gpt-4") ["a"; "b"; "c"] eq_refl).
  - exact (complete_concatenates url_model
             (Sample.server [ Sample.choice_open; Sample.event_eos;
                              Sample.choice_eos ])
             "" Sample.cfg "hi" (Sample.options "davinci") ["y"; "x"] eq_refl).
Defined.

(** ** The converters *)

Lemma field_set_field (fs : list (string * js)) (k : string) (v : js) :
  field (set_field fs k v) k = v.
Proof.
  induction fs as [|[k' v'] fs IH]; simpl.
  - by rewrite bool_decide_eq_true_2.
  - case_bool_decide as Hk; simpl.
    + by rewrite bool_decide_eq_true_2.
    + by rewrite (bool_decide_eq_false_2 _ Hk).
Qed.

Lemma field_set_field_ne (fs : list (string * js)) (k k' : string) (v : js) :
  k ≠ k' → field (set_field fs k v) k' = field fs k'.
Proof.
  intros Hne. induction fs as [|[k0 v0] fs IH]; simpl.
  - by rewrite (bool_decide_eq_false_2 _ Hne).
  - case_bool_decide as Hk; simpl.
    + subst k0. by rewrite !(bool_decide_eq_false_2 _ Hne).
    + by rewrite IH.
Qed.

Lemma mapM_result_cons {A B} (f : A → result B) (x : A) (xs : list A) :
  mapM f (x :: xs) =
    match f x with
    | Ok y => match mapM f xs with
              | Ok ys => Ok (y :: ys)
              | Throw e => Throw e
              end
    | Throw e => Throw e
    end.
Proof. simpl. unfold mbind, result_bind. by destruct (f x). Qed.

(** [xs.map(f)] succeeds when [f] succeeds on every element. *)
Lemma mapM_result_total {A B} (f : A → result B) (R : A → B → Prop)
    (xs : list A) :
  Forall (λ x, ∃ y, f x = Ok y ∧ R x y) xs →
  ∃ ys, mapM f xs = Ok ys ∧ Forall2 R xs ys.
Proof.
  induction 1 as [|x xs (y & Hy & HR) _ (ys & Hys & HRs)].
  - by exists [].
  - exists (y :: ys). rewrite mapM_result_cons, Hy, Hys. eauto.
Qed.

Lemma convertPart_defined (part : js) :
  nullish part = false →
  ∃ part', convertPart part = Ok part' ∧ converted_part part part'.
Proof.
  intros Hpart. unfold convertPart.
  rewrite !(get_not_nullish _ _ Hpart). simpl.
  eexists. split; [reflexivity|].
  repeat split. eexists. split; [reflexivity|]. apply field_set_field.
Qed.

Lemma convertMessage_string (message : js) (s : string) :
  nullish message = false → prop message "content" = JStr s →
  _convertMessage message = Ok message.
Proof.
  intros Hmessage Hcontent. unfold _convertMessage.
  rewrite (get_not_nullish _ _ Hmessage), Hcontent. done.
Qed.

Lemma convertMessage_parts (message : js) (parts : list js) :
  nullish message = false → prop message "content" = JArr parts →
  Forall (λ part, nullish part = false) parts →
  ∃ parts', _convertMessage message =
              Ok (JObj (set_field (spread [] message) "content" (JArr parts'))) ∧
            Forall2 converted_part parts parts'.
Proof.
  intros Hmessage Hcontent Hparts. unfold _convertMessage.
  rewrite (get_not_nullish _ _ Hmessage), Hcontent. simpl.
  destruct (mapM_result_total convertPart converted_part parts)
    as (parts' & Hmap & Hconv).
  { eapply Forall_impl; [exact Hparts|]. apply convertPart_defined. }
  exists parts'. by rewrite Hmap.
Qed.

Lemma object_not_nullish (v : js) : is_object v = true → nullish v = false.
Proof. by destruct v. Qed.

(** A well-formed message converts. *)
Lemma convertMessage_total (m : js) :
  is_ChatMessage m = true → ∃ m', _convertMessage m = Ok m'.
Proof.
  destruct m as [| | | | | |fs]; try done. simpl.
  destruct (field fs "content") as [| | | |s|parts|] eqn:Hcontent; try done.
  - intros _. exists (JObj fs). by apply (convertMessage_string _ s).
  - intros Hparts%Is_true_true%forallb_True.
    destruct (convertMessage_parts (JObj fs) parts) as (parts' & -> & _); eauto.
    eapply Forall_impl; [exact Hparts|]. intros part Hpart.
    apply object_not_nullish. by apply Is_true_true.
Qed.

(** C10.  [_convertMessage] returns a message with string content as it
    is; of a message with multi-part content it rewrites every part, text
    parts included, into a part that carries an [image_url] object whose
    [detail] is "low" (type and text are kept). *)
Theorem convertMessage_low_detail :
  (∀ message s,
     nullish message = false → prop message "content" = JStr s →
     _convertMessage message = Ok message) ∧
  (∀ message parts,
     nullish message = false → prop message "content" = JArr parts →
     Forall (λ part, nullish part = false) parts →
     ∃ message' parts',
       _convertMessage message = Ok message' ∧
       prop message' "content" = JArr parts' ∧
       Forall2 (λ part part',
                  prop part' "type" = prop part "type" ∧
                  prop part' "text" = prop part "text" ∧
                  ∃ image_url, prop part' "image_url" = JObj image_url ∧
                               field image_url "detail" = JStr "low")
               parts parts').
Proof.
  split.
  - apply convertMessage_string.
  - intros message parts Hmessage Hcontent Hparts.
    destruct (convertMessage_parts _ _ Hmessage Hcontent Hparts)
      as (parts' & Hconv & Hall).
    eexists _, parts'. split; [exact Hconv|]. split; [|exact Hall].
    simpl. apply field_set_field.
Qed.

Lemma convertMessage_low_detail_witness :
  ∃ message' parts',
    _convertMessage Sample.multi = Ok message' ∧
    prop message' "content" = JArr parts' ∧
    Forall2 (λ part part',
               prop part' "type" = prop part "type" ∧
               prop part' "text" = prop part "text" ∧
               ∃ image_url, prop part' "image_url" = JObj image_url ∧
                            field image_url "detail" = JStr "low")
            [Sample.text_part; Sample.image_part] parts'.
Proof.
  exact (proj2 convertMessage_low_detail Sample.multi
           [Sample.text_part; Sample.image_part] eq_refl eq_refl
           ltac:(by repeat constructor)).
Defined.

Lemma prefix_spec (p s : string) :
  String.prefix p s = true ↔ ∃ rest, s = p +:+ rest.
Proof.
  revert s. induction p as [|a p IH]; intros s.
  - destruct s; simpl; (split; [intros _; by eexists|done]).
  - destruct s as [|b s]; simpl.
    + split; [done|]. by intros [rest ?].
    + destruct (ascii_dec a b) as [->|Hne].
      * rewrite IH. split; intros [rest Hrest]; exists rest.
        -- by rewrite string_app_cons, <-Hrest.
        -- rewrite string_app_cons in Hrest. congruence.
      * split; [done|]. intros [rest Hrest].
        rewrite string_app_cons in Hrest. congruence.
Qed.

Lemma str_includes_nil (needle : string) :
  str_includes "" needle = String.prefix needle "".
Proof. unfold str_includes. apply orb_false_r. Qed.

Lemma str_includes_cons (c : ascii) (hay needle : string) :
  str_includes (String c hay) needle =
    String.prefix needle (String c hay) || str_includes hay needle.
Proof. reflexivity. Qed.

Lemma str_includes_spec (hay needle : string) :
  str_includes hay needle = true ↔ occurs_in needle hay.
Proof.
  split.
  - induction hay as [|c hay IH].
    + rewrite str_includes_nil. intros [rest Hrest]%prefix_spec.
      by exists "", rest.
    + rewrite str_includes_cons.
      intros [[rest Hrest]%prefix_spec|Hin]%orb_true_iff.
      * by exists "", rest.
      * destruct (IH Hin) as (before & after & ->).
        by exists (String c before), after.
  - intros (before & after & ->).
    induction before as [|c before IH].
    + assert (String.prefix needle ("" +:+ needle +:+ after) = true) as Hp.
      { apply prefix_spec. by exists after. }
      destruct ("" +:+ needle +:+ after).
      * by rewrite str_includes_nil.
      * by rewrite str_includes_cons, Hp.
    + rewrite string_app_cons, str_includes_cons, IH. apply orb_true_r.
Qed.

Lemma jan_marker_spec (cfg : Config) :
  jan_marker cfg = true ↔ ∃ base, apiBase cfg = Some base ∧ occurs_in ":1337" base.
Proof.
  unfold jan_marker. destruct (apiBase cfg) as [base|]; simpl.
  - rewrite str_includes_spec. split; [by exists base|].
    by intros (? & [= <-] & ?).
  - split; [done|]. by intros (? & ? & ?).
Qed.

Lemma convertArgs_total (cfg : Config) (options : CompletionOptions)
    (messages : list js) :
  Forall (λ m, is_ChatMessage m = true) messages →
  ∃ payload, _convertArgs cfg options messages = Ok payload.
Proof.
  intros Hmessages. unfold _convertArgs.
  destruct (mapM_result_total _convertMessage (λ _ _, True) messages)
    as (msgs & -> & _); [|by eexists].
  eapply Forall_impl; [exact Hmessages|]. intros m Hm.
  destruct (convertMessage_total m Hm) as [m' ->]. eauto.
Qed.

Lemma convertArgs_stop (cfg : Config) (options : CompletionOptions)
    (messages : list js) (payload : list (string * js)) :
  _convertArgs cfg options messages = Ok payload →
  field payload "stop" =
    if jan_marker cfg then opt_strings (opt_slice0 4 (stop options))
    else opt_strings (stop options).
Proof.
  unfold _convertArgs. destruct (mapM _ _); simpl; [|done].
  by intros [= <-].
Qed.

(** C3.  The [stop] field of the payload of [_convertArgs] is the first 4
    entries of [options.stop] when the API base contains ":1337", and
    [options.stop] itself when the API base does not contain it or is not
    set; the payload exists when the messages are well formed. *)
Theorem stop_truncated_for_jan (cfg : Config) (options : CompletionOptions)
    (messages : list js) (l : list string) :
  stop options = Some l →
  (∀ payload, _convertArgs cfg options messages = Ok payload →
     ((∃ base, apiBase cfg = Some base ∧ occurs_in ":1337" base) →
      field payload "stop" = JArr (JStr <$> take 4 l)) ∧
     ((∀ base, apiBase cfg = Some base → ¬ occurs_in ":1337" base) →
      field payload "stop" = JArr (JStr <$> l))) ∧
  (Forall (λ m, is_ChatMessage m = true) messages →
   ∃ payload, _convertArgs cfg options messages = Ok payload).
Proof.
  intros Hstop. split; [|apply convertArgs_total].
  intros payload Hpayload.
  rewrite (convertArgs_stop _ _ _ _ Hpayload), Hstop.
  split.
  - intros Hmarker%jan_marker_spec. by rewrite Hmarker.
  - intros Hnone. destruct (jan_marker cfg) eqn:Hmarker; [|done].
    apply jan_marker_spec in Hmarker as (base & Hbase & Hin).
    by destruct (Hnone base Hbase).
Qed.

(** A stop list of 6 entries behind a base with the marker: exactly the
    first 4 are sent. *)
Lemma stop_truncated_for_jan_witness :
  ∃ payload,
    _convertArgs Sample.jan_cfg Sample.six_stops [Sample.hi] = Ok payload ∧
    field payload "stop" = JArr [JStr "a"; JStr "b"; JStr "c"; JStr "d"].
Proof.
  eexists. split; [reflexivity|].
  refine (proj1 (proj1 (stop_truncated_for_jan Sample.jan_cfg Sample.six_stops
                          [Sample.hi] ["a"; "b"; "c"; "d"; "e"; "f"] eq_refl)
                   _ eq_refl) _).
  exists "http://localhost:1337/v1/". split; [reflexivity|].
  by exists "http://localhost", "/v1/".
Defined.

(** ** The prompt of the legacy path *)

Lemma legacy_prompt_last (sep : string) (messages : list js) (m : js) :
  is_ChatMessage m = true →
  legacy_prompt sep (messages ++ [m]) = stripImages sep (prop m "content").
Proof.
  unfold legacy_prompt, last_message. rewrite last_snoc. simpl.
  destruct m as [| | | | | |fs]; try done. simpl.
  change (opt_get (JObj fs) "content") with (field fs "content").
  destruct (field fs "content") as [| | | |s|parts|]; try done.
  intros _. unfold js_or. simpl. by case_bool_decide; subst.
Qed.

Lemma stripImages_text_then_image (sep : string) (text : string) (image : js) :
  str_eq (opt_get image "type") "text" = false →
  stripImages sep
    (JArr [ JObj [ ("type", JStr "text"); ("text", JStr text) ]; image ]) =
  JStr text.
Proof.
  intros Himage. unfold stripImages.
  rewrite filter_cons_True by done.
  rewrite filter_cons_False by (rewrite Himage; exact id).
  done.
Qed.

(** C5.  On the legacy path the prompt handed to the legacy streamer, and
    sent as the [prompt] of its request, is the content of the last
    message with its image parts stripped, and the empty string when
    there is no message; the content [[{type: "text", text: "a"}, image]]
    gives exactly "a". *)
Theorem legacy_prompt_strips_images
    (URL_new : string → option string → option string)
    (fetch : Request → result Response) (sep : string) (cfg : Config)
    (messages : list js) (options : CompletionOptions) :
  includes CHAT_ONLY_MODELS (model options) = false →
  includes NON_CHAT_MODELS (model options) ||
    useLegacyCompletionsEndpoint cfg = true →
  (∀ m, last messages = Some m → is_ChatMessage m = true) →
  let prompt :=
    match last messages with
    | None => JStr ""
    | Some m => stripImages sep (prop m "content")
    end in
  _streamChat URL_new fetch sep cfg messages options =
    run_map assistant_chunk (_legacystreamComplete URL_new fetch cfg prompt options) ∧
  (∃ payload, legacy_body cfg prompt options = Ok payload ∧
              field payload "prompt" = prompt) ∧
  (∀ text image,
     str_eq (opt_get image "type") "text" = false →
     stripImages sep
       (JArr [ JObj [ ("type", JStr "text"); ("text", JStr text) ]; image ]) =
     JStr text).
Proof.
  intros Hchat Hlegacy Hlast prompt.
  assert (legacy_prompt sep messages = prompt) as Hprompt.
  { subst prompt. destruct (last messages) as [m|] eqn:Hm.
    - specialize (Hlast m eq_refl).
      apply last_Some in Hm as [front ->]. by apply legacy_prompt_last.
    - by apply last_None in Hm as ->. }
  split_and!.
  - unfold _streamChat. rewrite Hchat, Hlegacy. simpl.
    unfold legacy_path. by rewrite Hprompt.
  - destruct (legacy_body_ok cfg prompt options) as (payload & ? & ? & _).
    by exists payload.
  - apply stripImages_text_then_image.
Qed.

Lemma legacy_prompt_strips_images_witness :
  yielded (_streamChat url_model (Sample.server [Sample.choice_open]) ""
             Sample.cfg [Sample.hi; Sample.multi] (Sample.options "davinci")) =
    yielded (run_map assistant_chunk
               (_legacystreamComplete url_model (Sample.server [Sample.choice_open])
                  Sample.cfg (JStr "a") (Sample.options "davinci"))).
Proof.
  destruct (legacy_prompt_strips_images url_model
              (Sample.server [Sample.choice_open]) "" Sample.cfg
              [Sample.hi; Sample.multi] (Sample.options "davinci")
              eq_refl eq_refl ltac:(by intros ? [= <-])) as [Hstream _].
  by rewrite Hstream.
Defined.

(** ** Endpoints *)

Lemma strip_prefix_spec (p s rest : string) :
  strip_prefix p s = Some rest → s = p +:+ rest.
Proof.
  revert s. induction p as [|a p IH]; intros [|b s]; simpl; try done.
  - by intros [= <-].
  - by intros [= <-].
  - case_bool_decide; [|done]. subst b. intros Hrest.
    by rewrite string_app_cons, <-(IH _ Hrest).
Qed.

Lemma strip_scheme_spec (base scheme rest : string) :
  strip_scheme base = Some (scheme, rest) → base = scheme +:+ rest.
Proof.
  unfold strip_scheme.
  destruct (strip_prefix "https://" base) as [r|] eqn:Hs.
  - intros [= <- <-]. by apply strip_prefix_spec.
  - destruct (strip_prefix "http://" base) as [r|] eqn:Hp; [|done].
    intros [= <- <-]. by apply strip_prefix_spec.
Qed.

Lemma break_slash_spec (s host path : string) :
  break_slash s = (host, path) → s = host +:+ path ∧ has_slash host = false.
Proof.
  revert host path. induction s as [|c s IH]; intros host path; simpl.
  - by intros [= <- <-].
  - case_bool_decide as Hc.
    + by intros [= <- <-].
    + destruct (break_slash s) as [h p]. intros [= <- <-].
      destruct (IH h p eq_refl) as [-> Hh]. split; [done|].
      simpl. by rewrite (bool_decide_eq_false_2 _ Hc).
Qed.

Lemma ends_with_slash_app (s t : string) :
  t ≠ "" → ends_with_slash (s +:+ t) = ends_with_slash t.
Proof.
  intros Ht. induction s as [|c s IH]; [done|].
  rewrite string_app_cons. simpl. rewrite IH.
  destruct (s +:+ t) eqn:E; [|done].
  destruct s; [by destruct t|done].
Qed.

Lemma ends_with_slash_has_slash (s : string) :
  ends_with_slash s = true → has_slash s = true.
Proof.
  induction s as [|c s IH]; [done|].
  destruct s as [|c' s].
  - simpl. by intros ->.
  - intros H. change (ends_with_slash (String c' s) = true) in H.
    change (has_slash (String c (String c' s))) with
      (bool_decide (c = "/"%char) || has_slash (String c' s)).
    rewrite (IH H). apply orb_true_r.
Qed.

Lemma dirname_directory (path : string) :
  ends_with_slash path = true → dirname path = path.
Proof.
  induction path as [|c path IH]; [done|].
  destruct path as [|c' path].
  - simpl. intros Hc. rewrite Hc. by apply bool_decide_eq_true in Hc as ->.
  - intros Hends. change (ends_with_slash (String c' path) = true) in Hends.
    change (dirname (String c (String c' path))) with
      (if has_slash (String c' path) then String c (dirname (String c' path))
       else if bool_decide (c = "/"%char) then "/" else "").
    rewrite (ends_with_slash_has_slash _ Hends).
    by rewrite (IH Hends).
Qed.

(** Against a normalized base that ends with ["/"], resolving a relative
    reference is appending it. *)
Lemma url_standard_directory (input base : string) :
  normalized base = true → ends_with_slash base = true →
  reference_ok input = true →
  url_standard input (Some base) = Some (Some (base +:+ input)).
Proof.
  intros Hnormal Hends Hinput. unfold url_standard.
  case_bool_decide as Hbase; [by subst base|].
  unfold normalized, parse_base in *.
  destruct (strip_scheme base) as [[scheme rest]|] eqn:Hscheme; [|done].
  apply strip_scheme_spec in Hscheme as ->.
  destruct (break_slash rest) as [authority path] eqn:Hbreak.
  apply break_slash_spec in Hbreak as [-> Hauthority].
  apply andb_true_iff in Hnormal as [Hpath Hsame].
  apply bool_decide_eq_true in Hsame. rewrite Hpath, Hsame, Hinput.
  assert (authority ≠ "") as Hne.
  { intros ->. by vm_compute in Hsame. }
  assert (path ≠ "" ∧ ends_with_slash path = true) as [Hpath' Hdir].
  { destruct path as [|c path].
    - rewrite string_app_nil_r in Hends.
      rewrite ends_with_slash_app in Hends by done.
      apply ends_with_slash_has_slash in Hends. congruence.
    - split; [done|]. rewrite <-string_app_assoc in Hends.
      by rewrite ends_with_slash_app in Hends. }
  rewrite (bool_decide_eq_false_2 _ Hpath'), (dirname_directory _ Hdir).
  by rewrite !string_app_assoc.
Qed.

Lemma url_model_conforms : URL_conforms url_model.
Proof. intros input base answer Hanswer. unfold url_model. by rewrite Hanswer. Qed.

(** A conforming constructor resolves a reference against a normalized
    base that ends with ["/"] by appending it. *)
Lemma new_URL_directory (URL_new : string → option string → option string)
    (input base : string) :
  URL_conforms URL_new →
  normalized base = true → ends_with_slash base = true →
  reference_ok input = true →
  new_URL URL_new input (Some base) = Ok (base +:+ input).
Proof.
  intros Hconforms Hnormal Hends Hinput. unfold new_URL.
  by rewrite (Hconforms _ _ _ (url_standard_directory _ _ Hnormal Hends Hinput)).
Qed.

(** What [url_standard] says of some bases: a port, an address, a host in
    upper case, a default port, a path without a final slash, and no
    base. *)
Lemma url_standard_examples :
  url_standard "completions" (Some "http://localhost:1337/v1/") =
    Some (Some "http://localhost:1337/v1/completions") ∧
  url_standard "models" (Some "http://127.0.0.1:8080/") =
    Some (Some "http://127.0.0.1:8080/models") ∧
  url_standard "models" (Some "https://API.OpenAI.com/v1/") =
    Some (Some "https://api.openai.com/v1/models") ∧
  url_standard "models" (Some "https://x:443/v1/") =
    Some (Some "https://x/v1/models") ∧
  url_standard "models" (Some "https://x/v1") = Some (Some "https://x/models") ∧
  url_standard "models" (Some "https://x") = Some (Some "https://x/models") ∧
  url_standard "models" (Some "https://x:65536/") = Some None ∧
  url_standard "models" (Some "") = Some None ∧
  url_standard "models" None = Some None ∧
  url_standard "models" (Some "https://[::1]/") = None ∧
  normalized "http://localhost:1337/v1/" = true ∧
  normalized "https://api.openai.com/v1/" = true ∧
  normalized "https://API.OpenAI.com/v1/" = false ∧
  normalized "https://x:443/v1/" = false.
Proof. by vm_compute. Qed.

Lemma new_URL_not_Error (URL_new : string → option string → option string)
    (input : string) (base : option string) (message : string) :
  new_URL URL_new input base ≠ Throw (Error message).
Proof. unfold new_URL. by destruct (URL_new input base). Qed.

Lemma getEndpoint_no_base (URL_new : string → option string → option string)
    (cfg : Config) (endpoint : Endpoint) :
  _getEndpoint URL_new cfg endpoint = Throw (Error NO_API_BASE) ↔
  apiType cfg ≠ Some "azure" ∧ no_base cfg = true.
Proof.
  unfold _getEndpoint. case_bool_decide as Hazure.
  - split; [|by intros [? _]].
    intros H. by apply new_URL_not_Error in H.
  - destruct (no_base cfg); [done|].
    split; [|by intros [_ ?]].
    intros H. by apply new_URL_not_Error in H.
Qed.

(** C6, as the code has it.  [_getEndpoint] hands to the URL constructor
    the deployment path (azure) or the endpoint name (otherwise) together
    with the API base, so the URL is the one the runtime resolves.  With
    a constructor that follows the URL Standard, a normalized http or
    https base that ends with "/" and a reference that needs no escaping
    and has no dot segment, that URL is base + reference.  The resolver
    throws the error "No API base URL provided ..." exactly when the API
    type is not azure and the base is unset or empty, and then no request
    is made. *)
Theorem getEndpoint_resolves (cfg : Config) (endpoint : Endpoint) :
  let reference :=
    if bool_decide (apiType cfg = Some "azure")
    then "openai/deployments/" +:+ template (engine cfg) +:+ "/" +:+
         endpoint_name endpoint +:+ "?api-version=" +:+ template (apiVersion cfg)
    else endpoint_name endpoint in
  (∀ URL_new,
     _getEndpoint URL_new cfg endpoint = Throw (Error NO_API_BASE) ↔
     apiType cfg ≠ Some "azure" ∧ no_base cfg = true) ∧
  (∀ URL_new message,
     _getEndpoint URL_new cfg endpoint = Throw (Error message) →
     occurs_in "No API base URL provided" message) ∧
  (∀ URL_new fetch payload,
     apiType cfg ≠ Some "azure" → no_base cfg = true →
     post URL_new fetch cfg endpoint payload = Throw (Error NO_API_BASE)) ∧
  (∀ URL_new,
     apiType cfg = Some "azure" ∨ no_base cfg = false →
     _getEndpoint URL_new cfg endpoint = new_URL URL_new reference (apiBase cfg)) ∧
  (∀ URL_new base,
     URL_conforms URL_new →
     apiBase cfg = Some base → normalized base = true →
     ends_with_slash base = true → reference_ok reference = true →
     _getEndpoint URL_new cfg endpoint = Ok (base +:+ reference)).
Proof.
  intros reference.
  assert (∀ URL_new,
     apiType cfg = Some "azure" ∨ no_base cfg = false →
     _getEndpoint URL_new cfg endpoint = new_URL URL_new reference (apiBase cfg))
    as Hresolve.
  { intros URL_new Hcase. subst reference. unfold _getEndpoint, deployment_path.
    case_bool_decide as Hazure; [done|].
    destruct Hcase as [?| ->]; done. }
  split_and!.
  - intros URL_new. apply getEndpoint_no_base.
  - intros URL_new message. unfold _getEndpoint.
    case_bool_decide as Hazure.
    + intros Hthrow. by apply new_URL_not_Error in Hthrow.
    + destruct (no_base cfg).
      * intros [= <-].
        by exists "", ". Please set the 'apiBase' option in config.json".
      * intros Hthrow. by apply new_URL_not_Error in Hthrow.
  - intros URL_new fetch payload Hazure Hbase. unfold post.
    by rewrite (proj2 (getEndpoint_no_base URL_new cfg endpoint) (conj Hazure Hbase)).
  - exact Hresolve.
  - intros URL_new base Hconforms Hbase Hnormal Hends Hreference.
    rewrite Hresolve.
    + rewrite Hbase. by apply new_URL_directory.
    + destruct (decide (apiType cfg = Some "azure")) as [|Hne]; [by left|right].
      unfold no_base. rewrite Hbase. apply bool_decide_eq_false_2.
      intros ->. done.
Qed.

(** The specification's example: the azure deployment "gpt4dep" behind
    "https://x/". *)
Lemma getEndpoint_resolves_witness :
  _getEndpoint url_model Sample.azure_cfg ChatCompletions =
    Ok "https://x/openai/deployments/gpt4dep/chat/completions?api-version=2023-05-15".
Proof.
  exact (proj2 (proj2 (proj2 (proj2
           (getEndpoint_resolves Sample.azure_cfg ChatCompletions))))
           url_model "https://x/" url_model_conforms
           eq_refl eq_refl eq_refl eq_refl).
Defined.

(** C6, as the spec has it, fails: behind the base "https://x/v1" the
    chat endpoint is not base + endpoint, the last segment of the base
    path is replaced. *)
Lemma getEndpoint_is_not_concatenation :
  _getEndpoint url_model Sample.v1_cfg ChatCompletions =
    Ok "https://x/chat/completions" ∧
  _getEndpoint url_model Sample.v1_cfg ChatCompletions ≠
    Ok ("https://x/v1" +:+ endpoint_name ChatCompletions).
Proof. by vm_compute. Qed.

(** ** The heap the chat payload is built on *)

Module HeapFacts.
Import Heap.

Lemma keeps_ret {A} (h0 : list cell) (a : A) (Q : A → Prop) :
  Q a → keeps h0 (mret a) Q.
Proof. intros HQ h Hh. split; [done|]. by intros ? [= <-]. Qed.

Lemma keeps_throw {A} (h0 : list cell) (e : error) (Q : A → Prop) :
  keeps h0 (throw e) Q.
Proof. intros h Hh. by split. Qed.

Lemma keeps_bind {A B} (h0 : list cell) (m : M A) (f : A → M B)
    (Q : A → Prop) (R : B → Prop) :
  keeps h0 m Q → (∀ a, Q a → keeps h0 (f a) R) → keeps h0 (m ≫= f) R.
Proof.
  intros Hm Hf h Hh. unfold mbind, M_bind.
  destruct (Hm h Hh) as [Hh' HQ].
  destruct (m h) as [[a|e] h']; simpl in *; [|by split].
  by apply Hf; [apply HQ|].
Qed.

Lemma keeps_weaken {A} (h0 : list cell) (m : M A) (Q R : A → Prop) :
  keeps h0 m Q → (∀ a, Q a → R a) → keeps h0 m R.
Proof.
  intros Hm HQR h Hh. destruct (Hm h Hh) as [Hh' HQ]. split; eauto.
Qed.

Lemma keeps_alloc (h0 : list cell) (c : cell) :
  keeps h0 (alloc c) (fresh h0).
Proof.
  intros h Hh. split; simpl.
  - by apply prefix_app_r.
  - intros ? [= <-]. exists (length h). split; [done|].
    by apply prefix_length.
Qed.

Lemma keeps_read (h0 : list cell) (l : loc) :
  keeps h0 (read l) (λ _, True).
Proof. intros h Hh. unfold read. by destruct (h !! l). Qed.

Lemma keeps_write (h0 : list cell) (l : loc) (c : cell) :
  (length h0 ≤ l)%nat → keeps h0 (write l c) (λ _, True).
Proof.
  intros Hl h [k ->]. split; [|done]. simpl.
  rewrite insert_app_r_alt by done. by apply prefix_app_r.
Qed.

Lemma keeps_get (h0 : list cell) (v : val) (k : string) :
  keeps h0 (get v k) (λ _, True).
Proof.
  destruct v; simpl; try by (apply keeps_ret || apply keeps_throw).
  eapply keeps_bind; [apply keeps_read|]. intros c _. by apply keeps_ret.
Qed.

Lemma keeps_spread (h0 : list cell) (acc : list (string * val)) (v : val) :
  keeps h0 (spread acc v) (λ _, True).
Proof.
  unfold spread.
  apply keeps_bind with (Q := λ _, True); [|intros fs _; by apply keeps_ret].
  destruct v; simpl; try by apply keeps_ret.
  eapply keeps_bind; [apply keeps_read|]. intros c _. by apply keeps_ret.
Qed.

Lemma keeps_mapM (h0 : list cell) (f : val → M val) (xs : list val) :
  (∀ x, keeps h0 (f x) (λ _, True)) → keeps h0 (mapM f xs) (λ _, True).
Proof.
  intros Hf. induction xs as [|x xs IH]; simpl.
  - by apply keeps_ret.
  - eapply keeps_bind; [apply Hf|]. intros y _.
    eapply keeps_bind; [apply IH|]. intros ys _. by apply keeps_ret.
Qed.

(** The array [v.map(f)] returns is a new one. *)
Lemma keeps_array_map (h0 : list cell) (f : val → M val) (v : val) :
  (∀ x, keeps h0 (f x) (λ _, True)) → keeps h0 (array_map f v) (fresh h0).
Proof.
  intros Hf. destruct v; simpl; try by apply keeps_throw.
  eapply keeps_bind; [apply keeps_read|]. intros [fs|es] _.
  - apply keeps_throw.
  - eapply keeps_bind; [by apply keeps_mapM|]. intros rs _.
    apply keeps_alloc.
Qed.

Lemma keeps_opt_slice0 (h0 : list cell) (n : nat) (v : val) :
  keeps h0 (opt_slice0 n v) (λ _, True).
Proof.
  destruct v; simpl; try by (apply keeps_ret || apply keeps_throw).
  eapply keeps_bind; [apply keeps_read|]. intros [fs|es] _.
  - apply keeps_throw.
  - eapply keeps_weaken; [apply keeps_alloc|done].
Qed.

Lemma keeps_assign (h0 : list cell) (l : loc) (k : string) (v : val) :
  (length h0 ≤ l)%nat → keeps h0 (assign (VRef l) k v) (λ _, True).
Proof.
  intros Hl. simpl. eapply keeps_bind; [apply keeps_read|].
  intros [fs|es] _; [by apply keeps_write|apply keeps_throw].
Qed.

Ltac step lemma :=
  eapply keeps_bind; [apply lemma|]; intros ? _.

Lemma keeps_convertPart (h0 : list cell) (part : val) :
  keeps h0 (convertPart part) (λ _, True).
Proof.
  unfold convertPart. do 3 step keeps_get. step keeps_spread.
  eapply keeps_bind; [apply keeps_alloc|]. intros image_url _.
  eapply keeps_weaken; [apply keeps_alloc|done].
Qed.

Lemma keeps_convertMessage (h0 : list cell) (message : val) :
  keeps h0 (_convertMessage message) (λ _, True).
Proof.
  unfold _convertMessage. step keeps_get.
  destruct (is_string _); [by apply keeps_ret|].
  eapply keeps_bind.
  { apply keeps_array_map. intros part. apply keeps_convertPart. }
  intros parts _. step keeps_spread.
  eapply keeps_weaken; [apply keeps_alloc|done].
Qed.

Lemma keeps_convertArgs (h0 : list cell) (cfg : Config) (options messages : val) :
  keeps h0 (_convertArgs cfg options messages) (λ _, True).
Proof.
  unfold _convertArgs.
  eapply keeps_bind.
  { apply keeps_array_map. intros m. apply keeps_convertMessage. }
  intros msgs _. do 6 step keeps_get.
  eapply keeps_bind with (Q := λ _, True).
  { destruct (jan_marker cfg); [|apply keeps_get].
    step keeps_get. apply keeps_opt_slice0. }
  intros stop _. eapply keeps_weaken; [apply keeps_alloc|done].
Qed.

Lemma keeps_fix_content (h0 : list cell) (m : val) :
  keeps h0 (fix_content m) (λ _, True).
Proof.
  unfold fix_content. step keeps_spread. step keeps_get.
  eapply keeps_weaken; [apply keeps_alloc|done].
Qed.

Lemma keeps_chat_body (h0 : list cell) (cfg : Config) (messages options : val) :
  keeps h0 (chat_body cfg messages options) (λ _, True).
Proof.
  unfold chat_body. step keeps_convertArgs. step keeps_spread.
  eapply keeps_bind; [apply keeps_alloc|]. intros body (l & -> & Hl).
  step keeps_get.
  eapply keeps_bind.
  { apply keeps_array_map. intros m. apply keeps_fix_content. }
  intros fixed _.
  eapply keeps_bind; [by apply keeps_assign|]. intros [] _.
  by apply keeps_ret.
Qed.

(** Building the chat payload leaves every cell that was on the heap
    before the call as it was, whether the call returns or throws. *)
Lemma chat_body_frame (cfg : Config) (messages options : val)
    (h : list cell) (l : loc) (c : cell) :
  h !! l = Some c → (chat_body cfg messages options h).2 !! l = Some c.
Proof.
  intros Hl.
  destruct (keeps_chat_body h cfg messages options h) as [Hprefix _]; [done|].
  by eapply prefix_lookup_Some.
Qed.

(** *** Values on the heap and the trees they stand for *)

Lemma js_nested_ind (Q : js → Prop) :
  Q JUndef → Q JNull → (∀ b, Q (JBool b)) → (∀ n, Q (JNum n)) →
  (∀ s, Q (JStr s)) →
  (∀ es, Forall Q es → Q (JArr es)) →
  (∀ fs, Forall (λ kv, Q kv.2) fs → Q (JObj fs)) →
  ∀ j, Q j.
Proof.
  intros Hundef Hnull Hbool Hnum Hstr Harr Hobj.
  fix IH 1. intros [| |b|n|s|es|fs].
  - exact Hundef.
  - exact Hnull.
  - apply Hbool.
  - apply Hnum.
  - apply Hstr.
  - apply Harr. induction es as [|e es IHes]; constructor.
    + apply IH.
    + exact IHes.
  - apply Hobj. induction fs as [|[k e] fs IHfs]; constructor.
    + apply IH.
    + exact IHfs.
Qed.

Lemma denotes_arr (P : loc → Prop) (h : list cell) (v : val) (es : list js) :
  denotes P h v (JArr es) ↔
  ∃ l vs, v = VRef l ∧ P l ∧ h !! l = Some (CArr vs) ∧
          Forall2 (denotes P h) vs es.
Proof.
  split; intros (l & vs & -> & HP & Hl & Hall); exists l, vs;
    (split_and!; [done|done|done|]); clear Hl; revert vs Hall.
  - induction es as [|e es IH]; intros [|v vs]; try done.
    intros [He Hes]. constructor; [done|]. by apply IH.
  - induction es as [|e es IH]; intros [|v vs] Hall; inversion Hall; subst;
      [done|].
    split; [done|]. by apply IH.
Qed.

Lemma denotes_obj (P : loc → Prop) (h : list cell) (v : val)
    (fs : list (string * js)) :
  denotes P h v (JObj fs) ↔
  ∃ l hfs, v = VRef l ∧ P l ∧ h !! l = Some (CObj hfs) ∧
           fields_denote P h hfs fs.
Proof.
  unfold fields_denote.
  split; intros (l & hfs & -> & HP & Hl & Hall); exists l, hfs;
    (split_and!; [done|done|done|]); clear Hl; revert hfs Hall.
  - induction fs as [|[k e] fs IH]; intros [|[k' v] hfs]; try done.
    intros (-> & He & Hfs). constructor; [done|]. by apply IH.
  - induction fs as [|[k e] fs IH]; intros [|[k' v] hfs] Hall;
      inversion Hall as [|? ? ? ? [Hk He] Hfs]; simplify_eq/=; [done|].
    split_and!; [done|done|]. by apply IH.
Qed.

End HeapFacts.

(** ** The heap model against the tree model *)

Module HeapSim.

Lemma denotes_mono (P Q : Heap.loc → Prop) (h h' : list Heap.cell)
    (v : Heap.val) (j : js) :
  (∀ l, P l → Q l) →
  (∀ l c, P l → h !! l = Some c → h' !! l = Some c) →
  Heap.denotes P h v j → Heap.denotes Q h' v j.
Proof.
  intros HPQ Hh. revert v.
  induction j as [| | | | |es IH|fs IH] using HeapFacts.js_nested_ind;
    intros v; try done.
  - rewrite !HeapFacts.denotes_arr.
    intros (l & vs & -> & HP & Hl & Hall). exists l, vs.
    split_and!; eauto. clear Hl.
    induction Hall as [|v e vs es Hv _ IHall]; [done|].
    inversion IH; subst. constructor; eauto.
  - rewrite !HeapFacts.denotes_obj.
    intros (l & hfs & -> & HP & Hl & Hall). exists l, hfs.
    split_and!; eauto. clear Hl. unfold Heap.fields_denote in *.
    induction Hall as [|[k v] [k' e] hfs fs [Hk Hv] _ IHall]; [done|].
    inversion IH; subst. constructor; eauto.
Qed.

(** Reading a value never leaves the heap. *)
Lemma denotes_bounded (P : Heap.loc → Prop) (h : list Heap.cell)
    (v : Heap.val) (j : js) :
  Heap.denotes P h v j →
  Heap.denotes (λ l, P l ∧ (l < length h)%nat) h v j.
Proof.
  revert v.
  induction j as [| | | | |es IH|fs IH] using HeapFacts.js_nested_ind;
    intros v; try done.
  - rewrite !HeapFacts.denotes_arr.
    intros (l & vs & -> & HP & Hl & Hall). exists l, vs.
    split_and!; eauto using lookup_lt_Some. clear Hl.
    induction Hall as [|v e vs es Hv _ IHall]; [done|].
    inversion IH; subst. constructor; eauto.
  - rewrite !HeapFacts.denotes_obj.
    intros (l & hfs & -> & HP & Hl & Hall). exists l, hfs.
    split_and!; eauto using lookup_lt_Some. clear Hl.
    unfold Heap.fields_denote in *.
    induction Hall as [|[k v] [k' e] hfs fs [Hk Hv] _ IHall]; [done|].
    inversion IH; subst. constructor; eauto.
Qed.

Lemma denotes_grows (P : Heap.loc → Prop) (h h' : list Heap.cell)
    (v : Heap.val) (j : js) :
  h `prefix_of` h' → Heap.denotes P h v j → Heap.denotes P h' v j.
Proof.
  intros Hh. apply denotes_mono; [done|].
  intros l c _ Hl. by eapply prefix_lookup_Some.
Qed.

Lemma fields_denote_grows (P : Heap.loc → Prop) (h h' : list Heap.cell)
    (hfs : list (string * Heap.val)) (fs : list (string * js)) :
  h `prefix_of` h' →
  Heap.fields_denote P h hfs fs → Heap.fields_denote P h' hfs fs.
Proof.
  intros Hh Hall. eapply Forall2_impl; [exact Hall|].
  intros [k v] [k' e] [? ?]. split; [done|]. by eapply denotes_grows.
Qed.

Lemma elems_denote_grows (P : Heap.loc → Prop) (h h' : list Heap.cell)
    (vs : list Heap.val) (es : list js) :
  h `prefix_of` h' →
  Forall2 (Heap.denotes P h) vs es → Forall2 (Heap.denotes P h') vs es.
Proof.
  intros Hh Hall. eapply Forall2_impl; [exact Hall|].
  intros v e. by apply denotes_grows.
Qed.

Lemma denotes_nullish (P : Heap.loc → Prop) (h : list Heap.cell)
    (v : Heap.val) (j : js) :
  Heap.denotes P h v j → nullish j = true → v = Heap.VUndef ∨ v = Heap.VNull.
Proof. destruct j; try done; simpl; auto. Qed.

Lemma field_denotes (P : Heap.loc → Prop) (h : list Heap.cell)
    (hfs : list (string * Heap.val)) (fs : list (string * js)) (k : string) :
  Heap.fields_denote P h hfs fs →
  Heap.denotes P h (Heap.field hfs k) (field fs k).
Proof.
  induction 1 as [|[k1 v] [k2 e] hfs fs [Hk Hv] _ IH]; [done|].
  simpl in *. subst k2. by case_bool_decide.
Qed.

Lemma set_field_denotes (P : Heap.loc → Prop) (h : list Heap.cell)
    (hfs : list (string * Heap.val)) (fs : list (string * js))
    (k : string) (v : Heap.val) (e : js) :
  Heap.fields_denote P h hfs fs → Heap.denotes P h v e →
  Heap.fields_denote P h (set_field hfs k v) (set_field fs k e).
Proof.
  intros Hfs Hv.
  induction Hfs as [|[k1 v1] [k2 e1] hfs fs [Hk Hv1] Hfs IH]; simpl in *.
  - by constructor.
  - subst k2. case_bool_decide; by constructor.
Qed.

Lemma spread_fields_denote (P : Heap.loc → Prop) (h : list Heap.cell)
    (hacc hfs : list (string * Heap.val)) (acc fs : list (string * js)) :
  Heap.fields_denote P h hacc acc → Heap.fields_denote P h hfs fs →
  Heap.fields_denote P h
    (foldl (λ o kv, set_field o kv.1 kv.2) hacc hfs)
    (foldl (λ o kv, set_field o kv.1 kv.2) acc fs).
Proof.
  intros Hacc Hfs. revert hacc acc Hacc.
  induction Hfs as [|[k1 v] [k2 e] hfs fs [Hk Hv] _ IH]; intros hacc acc Hacc;
    [done|].
  simpl in *. subst k2. apply IH. by apply set_field_denotes.
Qed.

Lemma at_key_denotes (P : Heap.loc → Prop) (h : list Heap.cell)
    (vs : list Heap.val) (es : list js) (i : nat) (k : string) :
  Forall2 (Heap.denotes P h) vs es →
  Heap.denotes P h (Heap.at_key id vs i k) (at_key id es i k).
Proof.
  intros Hall. revert i.
  induction Hall as [|v e vs es Hv _ IH]; intros i; [done|].
  simpl. by case_bool_decide.
Qed.

Lemma at_key_chars_denotes (P : Heap.loc → Prop) (h : list Heap.cell)
    (cs : list ascii) (i : nat) (k : string) :
  Heap.denotes P h (Heap.at_key Heap.str_of_char cs i k)
    (at_key str_of_char cs i k).
Proof.
  revert i. induction cs as [|c cs IH]; intros i; [done|].
  simpl. by case_bool_decide.
Qed.

Lemma index_fields_denote (P : Heap.loc → Prop) (h : list Heap.cell)
    (vs : list Heap.val) (es : list js) (i : nat) :
  Forall2 (Heap.denotes P h) vs es →
  Heap.fields_denote P h (Heap.index_fields id vs i) (index_fields id es i).
Proof.
  intros Hall. revert i. unfold Heap.fields_denote.
  induction Hall as [|v e vs es Hv _ IH]; intros i; simpl;
    constructor; [done|apply IH].
Qed.

Lemma index_fields_chars_denote (P : Heap.loc → Prop) (h : list Heap.cell)
    (cs : list ascii) (i : nat) :
  Heap.fields_denote P h (Heap.index_fields Heap.str_of_char cs i)
    (index_fields str_of_char cs i).
Proof.
  revert i. unfold Heap.fields_denote.
  induction cs as [|c cs IH]; intros i; simpl; constructor; [done|apply IH].
Qed.

Section Simulation.

Variable P : Heap.loc → Prop.

Lemma admits_new_grows (h h' : list Heap.cell) :
  h `prefix_of` h' → Heap.admits_new P h → Heap.admits_new P h'.
Proof.
  intros Hh Hnew l Hl. apply Hnew.
  apply prefix_length in Hh. lia.
Qed.

Lemma sim_ret {A B} (R : list Heap.cell → A → B → Prop) (h : list Heap.cell)
    (a : A) (b : B) :
  R h a b → Heap.simulates R h (mret a) (Ok b).
Proof. intros HR b' [= <-]. by exists a, h. Qed.

Lemma sim_throw {A B} (R : list Heap.cell → A → B → Prop) (h : list Heap.cell)
    (m : Heap.M A) (e : error) :
  Heap.simulates R h m (Throw e).
Proof. by intros b. Qed.

Lemma sim_bind {A A' B B'} (R : list Heap.cell → A → B → Prop)
    (S : list Heap.cell → A' → B' → Prop) (h : list Heap.cell)
    (m : Heap.M A) (r : result B) (f : A → Heap.M A') (g : B → result B') :
  Heap.simulates R h m r →
  (∀ h' a b, h `prefix_of` h' → R h' a b → Heap.simulates S h' (f a) (g b)) →
  Heap.simulates S h (m ≫= f) (r ≫= g).
Proof.
  intros Hm Hf c Hc. destruct r as [b|e]; [|done].
  destruct (Hm b eq_refl) as (a & h' & Hrun & Hh & HR).
  destruct (Hf h' a b Hh HR c Hc) as (a' & h'' & Hrun' & Hh' & HS).
  exists a', h''. split_and!; [|by etrans|done].
  unfold mbind, Heap.M_bind. by rewrite Hrun.
Qed.

(** A step the heap model takes and the tree model does not. *)
Lemma sim_bind_l {A A' B B'} (R : list Heap.cell → A → B → Prop)
    (S : list Heap.cell → A' → B' → Prop) (h : list Heap.cell)
    (m : Heap.M A) (b : B) (f : A → Heap.M A') (r : result B') :
  Heap.simulates R h m (Ok b) →
  (∀ h' a, h `prefix_of` h' → R h' a b → Heap.simulates S h' (f a) r) →
  Heap.simulates S h (m ≫= f) r.
Proof.
  intros Hm Hf c Hc.
  destruct (Hm b eq_refl) as (a & h' & Hrun & Hh & HR).
  destruct (Hf h' a Hh HR c Hc) as (a' & h'' & Hrun' & Hh' & HS).
  exists a', h''. split_and!; [|by etrans|done].
  unfold mbind, Heap.M_bind. by rewrite Hrun.
Qed.

Lemma sim_read {A B} (R : list Heap.cell → A → B → Prop) (h : list Heap.cell)
    (l : Heap.loc) (c : Heap.cell) (f : Heap.cell → Heap.M A) (r : result B) :
  h !! l = Some c → Heap.simulates R h (f c) r →
  Heap.simulates R h (Heap.read l ≫= f) r.
Proof.
  intros Hl Hf b Hb. destruct (Hf b Hb) as (a & h' & Hrun & Hh & HR).
  exists a, h'. split_and!; [|done|done].
  unfold mbind, Heap.M_bind, Heap.read. by rewrite Hl.
Qed.

Lemma sim_get (h : list Heap.cell) (v : Heap.val) (j : js) (k : string) :
  Heap.denotes P h v j →
  Heap.simulates (Heap.denotes P) h (Heap.get v k) (get j k).
Proof.
  intros Hv. unfold get.
  destruct j as [| |b|n|s|es|fs]; simpl; try apply sim_throw; simpl in Hv.
  - subst v. apply (sim_ret _ _ Heap.VUndef). by simpl.
  - subst v. apply (sim_ret _ _ Heap.VUndef). by simpl.
  - subst v. simpl. apply sim_ret. unfold Heap.array_like, array_like.
    case_bool_decide; [done|]. apply at_key_chars_denotes.
  - apply HeapFacts.denotes_arr in Hv as (l & vs & -> & HP & Hl & Hall).
    simpl. eapply sim_read; [exact Hl|]. apply sim_ret.
    unfold Heap.array_like, array_like. case_bool_decide.
    + simpl. by rewrite (Forall2_length _ _ _ Hall).
    + by apply at_key_denotes.
  - apply HeapFacts.denotes_obj in Hv as (l & hfs & -> & HP & Hl & Hall).
    simpl. eapply sim_read; [exact Hl|]. apply sim_ret.
    by apply field_denotes.
Qed.

Lemma get_heap (v : Heap.val) (k : string) (h : list Heap.cell) :
  (Heap.get v k h).2 = h.
Proof.
  destruct v as [| | | | |l]; try done. simpl.
  unfold mbind, Heap.M_bind, Heap.read. by destruct (h !! l).
Qed.

(** [get] does not change the heap, so what was read before stays
    readable. *)
Lemma sim_get_bind {A B} (S : list Heap.cell → A → B → Prop)
    (h : list Heap.cell) (v : Heap.val) (j : js) (k : string)
    (f : Heap.val → Heap.M A) (g : js → result B) :
  Heap.denotes P h v j →
  (∀ a, Heap.denotes P h a (prop j k) → Heap.simulates S h (f a) (g (prop j k))) →
  Heap.simulates S h (Heap.get v k ≫= f) (get j k ≫= g).
Proof.
  intros Hv Hf c Hc. unfold get in Hc.
  destruct (nullish j) eqn:Hj; [done|]. simpl in Hc.
  destruct (sim_get h v j k Hv (prop j k)) as (a & h' & Hrun & _ & Ha).
  { unfold get. by rewrite Hj. }
  assert (h' = h) as ->.
  { pose proof (get_heap v k h) as Hheap. by rewrite Hrun in Hheap. }
  destruct (Hf a Ha c Hc) as (a' & h'' & Hrun' & Hh & HS).
  exists a', h''. split_and!; [|done|done].
  unfold mbind, Heap.M_bind at 1. by rewrite Hrun.
Qed.

Lemma spread_run (h : list Heap.cell) (hacc : list (string * Heap.val))
    (acc : list (string * js)) (v : Heap.val) (j : js) :
  Heap.fields_denote P h hacc acc → Heap.denotes P h v j →
  ∃ hfs, Heap.spread hacc v h = (Ok hfs, h) ∧
         Heap.fields_denote P h hfs (spread acc j).
Proof.
  intros Hacc Hv. unfold Heap.spread, spread.
  destruct j as [| |b|n|s|es|fs]; simpl in Hv.
  1-4: subst v; eexists; split; [reflexivity|]; exact Hacc.
  - subst v. eexists. split; [reflexivity|]. simpl.
    apply spread_fields_denote; [done|]. apply index_fields_chars_denote.
  - apply HeapFacts.denotes_arr in Hv as (l & vs & -> & HP & Hl & Hall).
    eexists. split.
    + unfold mbind, Heap.M_bind, Heap.own_fields, Heap.read. simpl.
      unfold mbind, Heap.M_bind, Heap.read. rewrite Hl. reflexivity.
    + simpl. apply spread_fields_denote; [done|]. by apply index_fields_denote.
  - apply HeapFacts.denotes_obj in Hv as (l & hfs & -> & HP & Hl & Hall).
    eexists. split.
    + unfold mbind, Heap.M_bind, Heap.own_fields, Heap.read. simpl.
      unfold mbind, Heap.M_bind, Heap.read. rewrite Hl. reflexivity.
    + simpl. by apply spread_fields_denote.
Qed.

Lemma sim_spread_bind {A B} (S : list Heap.cell → A → B → Prop)
    (h : list Heap.cell) (hacc : list (string * Heap.val))
    (acc : list (string * js)) (v : Heap.val) (j : js)
    (f : list (string * Heap.val) → Heap.M A) (r : result B) :
  Heap.fields_denote P h hacc acc → Heap.denotes P h v j →
  (∀ hfs, Heap.fields_denote P h hfs (spread acc j) →
          Heap.simulates S h (f hfs) r) →
  Heap.simulates S h (Heap.spread hacc v ≫= f) r.
Proof.
  intros Hacc Hv Hf c Hc.
  destruct (spread_run h hacc acc v j Hacc Hv) as (hfs & Hrun & Hfs).
  destruct (Hf hfs Hfs c Hc) as (a' & h'' & Hrun' & Hh & HS).
  exists a', h''. split_and!; [|done|done].
  unfold mbind, Heap.M_bind at 1. by rewrite Hrun.
Qed.

Lemma alloc_obj_denotes (h : list Heap.cell) (hfs : list (string * Heap.val))
    (fs : list (string * js)) :
  Heap.admits_new P h → Heap.fields_denote P h hfs fs →
  Heap.denotes P (h ++ [Heap.CObj hfs]) (Heap.VRef (length h)) (JObj fs).
Proof.
  intros Hnew Hfs. apply HeapFacts.denotes_obj. exists (length h), hfs.
  split_and!; [done|by apply Hnew| |].
  - by rewrite lookup_app_r, Nat.sub_diag.
  - eapply fields_denote_grows; [|exact Hfs]. by apply prefix_app_r.
Qed.

Lemma sim_alloc_obj (h : list Heap.cell) (hfs : list (string * Heap.val))
    (fs : list (string * js)) :
  Heap.admits_new P h → Heap.fields_denote P h hfs fs →
  Heap.simulates (Heap.denotes P) h (Heap.alloc (Heap.CObj hfs)) (Ok (JObj fs)).
Proof.
  intros Hnew Hfs b [= <-]. eexists _, _. split; [reflexivity|].
  split; [by apply prefix_app_r|]. by apply alloc_obj_denotes.
Qed.

Lemma sim_alloc_arr (h : list Heap.cell) (vs : list Heap.val) (es : list js) :
  Heap.admits_new P h → Forall2 (Heap.denotes P h) vs es →
  Heap.simulates (Heap.denotes P) h (Heap.alloc (Heap.CArr vs)) (Ok (JArr es)).
Proof.
  intros Hnew Hes b [= <-]. eexists _, _. split; [reflexivity|].
  split; [by apply prefix_app_r|].
  apply HeapFacts.denotes_arr. exists (length h), vs.
  split_and!; [done|by apply Hnew| |].
  - by rewrite lookup_app_r, Nat.sub_diag.
  - eapply elems_denote_grows; [|exact Hes]. by apply prefix_app_r.
Qed.

Lemma is_string_denotes (h : list Heap.cell) (v : Heap.val) (j : js) :
  Heap.denotes P h v j → Heap.is_string v = is_string j.
Proof.
  destruct j; simpl; try by intros ->.
  - by intros (l & vs & -> & _).
  - by intros (l & hfs & -> & _).
Qed.

Lemma str_eq_denotes (h : list Heap.cell) (v : Heap.val) (j : js) (s : string) :
  Heap.denotes P h v j → Heap.str_eq v s = str_eq j s.
Proof.
  destruct j; simpl; try by intros ->.
  - by intros (l & vs & -> & _).
  - by intros (l & hfs & -> & _).
Qed.

Lemma sim_mapM (hf : Heap.val → Heap.M Heap.val) (f : js → result js)
    (xs : list Heap.val) (jxs : list js) (h : list Heap.cell) :
  (∀ h' x jx, h `prefix_of` h' → Heap.denotes P h' x jx →
     Heap.simulates (Heap.denotes P) h' (hf x) (f jx)) →
  Forall2 (Heap.denotes P h) xs jxs →
  Heap.simulates (λ h', Forall2 (Heap.denotes P h')) h (mapM hf xs) (mapM f jxs).
Proof.
  revert jxs h. induction xs as [|x xs IH]; intros jxs h Hf Hall;
    inversion Hall as [|? jx ? jxs' Hx Hxs]; subst.
  - by apply (sim_ret _ _ []).
  - simpl. eapply sim_bind; [by apply Hf|].
    intros h' y jy Hh Hy.
    eapply sim_bind.
    + apply IH.
      * intros h'' x' jx' Hh'. apply Hf. by etrans.
      * by eapply elems_denote_grows.
    + intros h'' ys jys Hh' Hys. apply (sim_ret _ _ (y :: ys)).
      constructor; [|done]. by eapply denotes_grows.
Qed.

Lemma sim_array_map (hf : Heap.val → Heap.M Heap.val) (f : js → result js)
    (h : list Heap.cell) (v : Heap.val) (j : js) :
  Heap.admits_new P h →
  (∀ h' x jx, h `prefix_of` h' → Heap.denotes P h' x jx →
     Heap.simulates (Heap.denotes P) h' (hf x) (f jx)) →
  Heap.denotes P h v j →
  Heap.simulates (Heap.denotes P) h (Heap.array_map hf v) (array_map f j).
Proof.
  intros Hnew Hf Hv.
  destruct j as [| | | | |es|]; try apply sim_throw.
  apply HeapFacts.denotes_arr in Hv as (l & vs & -> & HP & Hl & Hall).
  simpl. eapply sim_read; [exact Hl|]. simpl.
  change (JArr <$> mapM f es) with (mapM f es ≫= (λ rs, Ok (JArr rs))).
  eapply sim_bind; [by apply sim_mapM|].
  intros h' rs jrs Hh Hrs. apply sim_alloc_arr; [|done].
  by eapply admits_new_grows.
Qed.

Lemma sim_convertPart (h : list Heap.cell) (part : Heap.val) (jpart : js) :
  Heap.admits_new P h → Heap.denotes P h part jpart →
  Heap.simulates (Heap.denotes P) h (Heap.convertPart part) (convertPart jpart).
Proof.
  intros Hnew Hpart. unfold Heap.convertPart, convertPart.
  apply sim_get_bind; [done|]. intros type Htype.
  apply sim_get_bind; [done|]. intros text Htext.
  apply sim_get_bind; [done|]. intros imageUrl HimageUrl.
  eapply sim_spread_bind; [by constructor|exact HimageUrl|]. intros fs Hfs.
  eapply sim_bind_l with
    (b := JObj (set_field (spread [] (prop jpart "imageUrl")) "detail"
                  (JStr "low"))).
  { apply sim_alloc_obj; [done|].
    apply set_field_denotes; [exact Hfs|]. by simpl. }
  intros h' image_url Hh Himage.
  apply sim_alloc_obj; [by eapply admits_new_grows|].
  repeat constructor; simpl; try done; by eapply denotes_grows.
Qed.

Lemma sim_convertMessage (h : list Heap.cell) (m : Heap.val) (jm : js) :
  Heap.admits_new P h → Heap.denotes P h m jm →
  Heap.simulates (Heap.denotes P) h (Heap._convertMessage m) (_convertMessage jm).
Proof.
  intros Hnew Hm. unfold Heap._convertMessage, _convertMessage.
  apply sim_get_bind; [done|]. intros content Hcontent.
  rewrite (is_string_denotes _ _ _ Hcontent).
  destruct (is_string _); [by apply sim_ret|].
  eapply sim_bind.
  { apply sim_array_map; [done| |exact Hcontent].
    intros h' x jx Hh Hx. apply sim_convertPart; [|done].
    by eapply admits_new_grows. }
  intros h' parts jparts Hh Hparts.
  eapply sim_spread_bind; [by constructor|by eapply denotes_grows|].
  intros fs Hfs. apply sim_alloc_obj; [by eapply admits_new_grows|].
  by apply set_field_denotes.
Qed.

Lemma sim_fix_content (h : list Heap.cell) (m : Heap.val) (jm : js) :
  Heap.admits_new P h → Heap.denotes P h m jm →
  Heap.simulates (Heap.denotes P) h (Heap.fix_content m) (fix_content jm).
Proof.
  intros Hnew Hm. unfold Heap.fix_content, fix_content.
  eapply sim_spread_bind; [by constructor|exact Hm|]. intros fs Hfs.
  apply sim_get_bind; [done|]. intros content Hcontent.
  apply sim_alloc_obj; [done|].
  apply set_field_denotes; [done|].
  rewrite (str_eq_denotes _ _ _ _ Hcontent).
  by destruct (str_eq _ _).
Qed.

(** A read the heap model makes and the tree model does not. *)
Lemma sim_get_l {A B} (S : list Heap.cell → A → B → Prop)
    (h : list Heap.cell) (v : Heap.val) (j : js) (k : string)
    (f : Heap.val → Heap.M A) (r : result B) :
  Heap.denotes P h v j → nullish j = false →
  (∀ a, Heap.denotes P h a (prop j k) → Heap.simulates S h (f a) r) →
  Heap.simulates S h (Heap.get v k ≫= f) r.
Proof.
  intros Hv Hj Hf c Hc.
  apply (sim_get_bind S h v j k f (λ _, r) Hv Hf c).
  unfold get. by rewrite Hj.
Qed.

Lemma sim_opt_slice0 (h : list Heap.cell) (n : nat) (v : Heap.val)
    (o : option (list string)) :
  Heap.admits_new P h → Heap.denotes P h v (opt_strings o) →
  Heap.simulates (Heap.denotes P) h (Heap.opt_slice0 n v)
    (Ok (opt_strings (opt_slice0 n o))).
Proof.
  intros Hnew Hv. destruct o as [l|]; simpl in *.
  - change (Heap.denotes P h v (JArr (JStr <$> l))) in Hv.
    apply HeapFacts.denotes_arr in Hv as (a & vs & -> & HP & Ha & Hall).
    simpl. eapply sim_read; [exact Ha|]. simpl.
    apply sim_alloc_arr; [done|].
    rewrite fmap_take. by apply Forall2_take.
  - subst v. by apply (sim_ret _ _ Heap.VUndef).
Qed.

Lemma array_map_mapM (f : js → result js) (es : list js) {B}
    (g : js → result B) :
  array_map f (JArr es) ≫= g = mapM f es ≫= (λ rs, g (JArr rs)).
Proof. simpl. unfold fmap, result_fmap. by destruct (mapM f es). Qed.

Lemma sim_convertArgs (cfg : Config) (h : list Heap.cell)
    (hoptions hmessages : Heap.val) (options : CompletionOptions)
    (messages : list js) :
  Heap.admits_new P h →
  options_on P h hoptions options →
  Heap.denotes P h hmessages (JArr messages) →
  Heap.simulates (λ h' v fs, Heap.denotes P h' v (JObj fs)) h
    (Heap._convertArgs cfg hoptions hmessages)
    (_convertArgs cfg options messages).
Proof.
  intros Hnew (fs & Hoptions & Hmodel & Hmax & Htemp & Htop & Hfreq & Hpres & Hstop)
    Hmessages.
  unfold Heap._convertArgs, _convertArgs.
  rewrite <-(array_map_mapM _convertMessage messages
               (λ msgs, Ok [ ("messages", msgs); _; _; _; _; _; _; _ ])).
  eapply sim_bind.
  { apply sim_array_map; [done| |exact Hmessages].
    intros h' x jx Hh Hx. apply sim_convertMessage; [|done].
    by eapply admits_new_grows. }
  intros h' msgs jmsgs Hh Hmsgs.
  assert (Heap.denotes P h' hoptions (JObj fs)) as Hoptions'
    by (by eapply denotes_grows).
  assert (Heap.admits_new P h') as Hnew' by (by eapply admits_new_grows).
  eapply sim_get_l; [exact Hoptions'|done|]. intros model Hm.
  eapply sim_get_l; [exact Hoptions'|done|]. intros max_tokens Hmt.
  eapply sim_get_l; [exact Hoptions'|done|]. intros temperature Ht.
  eapply sim_get_l; [exact Hoptions'|done|]. intros top_p Htp.
  eapply sim_get_l; [exact Hoptions'|done|]. intros frequency_penalty Hfp.
  eapply sim_get_l; [exact Hoptions'|done|]. intros presence_penalty Hpp.
  simpl in Hm, Hmt, Ht, Htp, Hfp, Hpp.
  rewrite Hmodel in Hm. rewrite Hmax in Hmt. rewrite Htemp in Ht.
  rewrite Htop in Htp. rewrite Hfreq in Hfp. rewrite Hpres in Hpp.
  eapply sim_bind_l with
    (R := Heap.denotes P)
    (b := if jan_marker cfg then opt_strings (opt_slice0 4 (stop options))
          else opt_strings (stop options)).
  { destruct (jan_marker cfg).
    - eapply sim_get_l; [exact Hoptions'|done|]. intros stop Hs.
      simpl in Hs. rewrite Hstop in Hs. by apply sim_opt_slice0.
    - intros b [= <-].
      destruct (sim_get h' hoptions (JObj fs) "stop" Hoptions' _ eq_refl)
        as (a & h'' & Hrun & Hh' & Ha).
      exists a, h''. simpl in Ha. by rewrite Hstop in Ha. }
  intros h'' stop Hh' Hs b [= <-].
  eexists _, _. split; [reflexivity|]. split; [by apply prefix_app_r|].
  apply alloc_obj_denotes; [by eapply admits_new_grows|].
  repeat constructor; simpl; try done; by eapply denotes_grows.
Qed.

End Simulation.

Lemma fields_denote_mono (P Q : Heap.loc → Prop) (h h' : list Heap.cell)
    (hfs : list (string * Heap.val)) (fs : list (string * js)) :
  (∀ l, P l → (l < length h)%nat → Q l) →
  (∀ l c, P l → h !! l = Some c → h' !! l = Some c) →
  Heap.fields_denote P h hfs fs → Heap.fields_denote Q h' hfs fs.
Proof.
  intros HPQ Hh Hall. eapply Forall2_impl; [exact Hall|].
  intros [k v] [k' e] [? Hv]. split; [done|].
  apply denotes_bounded in Hv.
  eapply denotes_mono; [| |exact Hv]; simpl.
  - intros l [? ?]. by apply HPQ.
  - intros l c [? _]. by apply Hh.
Qed.

(** The heap model of the chat payload returns where the tree model
    does, and the object it returns stands for the payload. *)
Lemma chat_body_simulated (cfg : Config) (h : list Heap.cell)
    (hmessages hoptions : Heap.val) (messages : list js)
    (options : CompletionOptions) (payload : list (string * js)) :
  Heap.denotes (λ _, True) h hmessages (JArr messages) →
  options_on (λ _, True) h hoptions options →
  chat_body cfg messages options = Ok payload →
  ∃ l h', Heap.chat_body cfg hmessages hoptions h = (Ok (Heap.VRef l), h') ∧
          (length h ≤ l)%nat ∧
          Heap.denotes (λ _, True) h' (Heap.VRef l) (JObj payload).
Proof.
  intros Hmessages Hoptions Hbody. unfold chat_body in Hbody.
  destruct (_convertArgs cfg options messages) as [args|] eqn:Hargs; [|done].
  simpl in Hbody.
  set (jbody := set_field (spread [] (JObj args)) "stream" (JBool true)) in *.
  destruct (array_map fix_content (field jbody "messages")) as [jfixed|]
    eqn:Hfixed; [|done].
  simpl in Hbody. injection Hbody as <-.
  (* the arguments, before the payload object exists *)
  destruct (sim_convertArgs (λ _, True) cfg h hoptions hmessages options
              messages ltac:(done) Hoptions Hmessages args Hargs)
    as (hargs & h1 & Hrun1 & Hh1 & Hargs1).
  destruct (spread_run (λ _, True) h1 [] [] hargs (JObj args)
              ltac:(constructor) Hargs1) as (hfs & Hrun2 & Hfs).
  remember (set_field hfs "stream" (Heap.VBool true)) as hbody eqn:Hhbody.
  assert (Heap.fields_denote (λ _, True) h1 hbody jbody) as Hfields
    by (subst hbody; by apply set_field_denotes).
  remember (length h1) as l eqn:Hl.
  remember (h1 ++ [Heap.CObj hbody]) as h2 eqn:Hh2.
  assert (h2 !! l = Some (Heap.CObj hbody)) as Hl2
    by (subst h2 l; by rewrite lookup_app_r, Nat.sub_diag).
  (* the fixed-up messages, read without going through the payload *)
  assert (Heap.denotes (λ l', l' ≠ l) h2 (Heap.field hbody "messages")
            (field jbody "messages")) as Hmsgs.
  { eapply denotes_mono;
      [| |apply denotes_bounded, field_denotes; exact Hfields]; simpl.
    - intros l' [_ Hl']. subst l. lia.
    - intros l' c _ Hl'. subst h2. by apply lookup_app_l_Some. }
  assert (Heap.admits_new (λ l', l' ≠ l) h2) as Hnew2.
  { intros l' Hl'. subst h2 l. rewrite length_app in Hl'. simpl in Hl'. lia. }
  destruct (sim_array_map (λ l', l' ≠ l) Heap.fix_content fix_content h2
              (Heap.field hbody "messages") (field jbody "messages") Hnew2)
    with (b := jfixed) as (fixed & h3 & Hrun3 & Hh3 & Hfixed3); [|done|done|].
  { intros h' x jx Hh' Hx. apply sim_fix_content; [|done].
    by eapply admits_new_grows. }
  assert (h3 !! l = Some (Heap.CObj hbody)) as Hl3
    by (by eapply prefix_lookup_Some).
  exists l, (<[l := Heap.CObj (set_field hbody "messages" fixed)]> h3).
  split_and!.
  - unfold Heap.chat_body, mbind, Heap.M_bind at 1. rewrite Hrun1.
    unfold Heap.M_bind at 1. rewrite Hrun2.
    unfold Heap.M_bind at 1. simpl. rewrite <-Hhbody, <-Hl, <-Hh2.
    unfold Heap.M_bind at 1. unfold Heap.get, mbind, Heap.M_bind at 1.
    unfold Heap.read. rewrite Hl2. simpl.
    unfold Heap.M_bind at 1. rewrite Hrun3.
    unfold Heap.M_bind at 1. unfold Heap.assign, mbind, Heap.M_bind, Heap.read.
    by rewrite Hl3.
  - subst l. by apply prefix_length.
  - apply HeapFacts.denotes_obj. eexists l, _.
    split_and!; [done|done| |].
    + apply list_lookup_insert_eq. by eapply lookup_lt_Some.
    + apply set_field_denotes.
      * eapply fields_denote_mono; [done| |exact Hfields].
        intros l' c _ Hl'. rewrite list_lookup_insert_ne.
        -- eapply prefix_lookup_Some; [|exact Hh3].
           subst h2. by apply lookup_app_l_Some.
        -- apply lookup_lt_Some in Hl'. lia.
      * eapply denotes_mono; [| |exact Hfixed3]; [done|].
        intros l' c Hne Hl'. by rewrite list_lookup_insert_ne.
Qed.

End HeapSim.

(** ** The chat payload *)

Lemma wire_message (m : js) :
  is_ChatMessage m = true →
  ∃ m' w, _convertMessage m = Ok m' ∧ fix_content m' = Ok w ∧ transmitted m w.
Proof.
  destruct m as [| | | | | |fs]; try done. unfold transmitted. simpl.
  destruct (field fs "content") as [| | | |s|parts|] eqn:Hcontent; try done.
  - intros _. exists (JObj fs). eexists. split_and!.
    + by apply (convertMessage_string _ s).
    + unfold fix_content. simpl. rewrite Hcontent. reflexivity.
    + simpl. rewrite field_set_field. by case_bool_decide.
  - intros Hparts%Is_true_true%forallb_True.
    destruct (convertMessage_parts (JObj fs) parts) as (parts' & Hconv & Hall);
      [done|done| |].
    { eapply Forall_impl; [exact Hparts|]. intros part Hpart.
      apply object_not_nullish. by apply Is_true_true. }
    eexists. eexists. split_and!.
    + exact Hconv.
    + unfold fix_content. simpl. rewrite field_set_field. reflexivity.
    + exists parts'. split; [|done]. simpl. by rewrite field_set_field.
Qed.

Lemma wire_messages (messages : list js) :
  Forall (λ m, is_ChatMessage m = true) messages →
  ∃ msgs wire, mapM _convertMessage messages = Ok msgs ∧
               mapM fix_content msgs = Ok wire ∧
               Forall2 transmitted messages wire.
Proof.
  induction 1 as [|m messages Hm _ (msgs & wire & Hmsgs & Hwire & Hall)].
  - by exists [], [].
  - destruct (wire_message m Hm) as (m' & w & Hm' & Hw & Hmw).
    exists (m' :: msgs), (w :: wire).
    rewrite !mapM_result_cons, Hm', Hmsgs, Hw, Hwire. eauto.
Qed.

Lemma chat_body_transmits (cfg : Config) (messages : list js)
    (options : CompletionOptions) :
  Forall (λ m, is_ChatMessage m = true) messages →
  ∃ payload wire,
    chat_body cfg messages options = Ok payload ∧
    field payload "messages" = JArr wire ∧
    field payload "stream" = JBool true ∧
    Forall2 transmitted messages wire.
Proof.
  intros Hmessages.
  destruct (wire_messages messages Hmessages) as (msgs & wire & Hmsgs & Hwire & Hall).
  unfold chat_body, _convertArgs. rewrite Hmsgs. simpl. rewrite Hwire. simpl.
  eexists. exists wire. split; [reflexivity|]. done.
Qed.

Lemma sample_heap_messages :
  Heap.denotes (λ _, True) Sample.heap (Heap.VRef 2%nat)
    (JArr [Sample.empty; Sample.hi]).
Proof.
  apply HeapFacts.denotes_arr. eexists _, _.
  split_and!; [reflexivity|done|reflexivity|].
  repeat constructor;
    (apply HeapFacts.denotes_obj; eexists _, _;
     split_and!; [reflexivity|done|reflexivity|by repeat constructor]).
Qed.

Lemma sample_heap_options :
  options_on (λ _, True) Sample.heap (Heap.VRef 3%nat) (Sample.options "gpt-4").
Proof.
  exists [ ("model", JStr "gpt-4") ]. split; [|done].
  apply HeapFacts.denotes_obj. eexists _, _.
  split_and!; [reflexivity|done|reflexivity|by repeat constructor].
Qed.

(** C4, as the code has it.  Let the caller's messages and options live
    on a heap, the messages well formed.  The chat branch then builds its
    payload, which the request carries, and: no cell that existed before
    the call is changed, so the caller's message objects are not mutated
    and still stand for the same messages; the payload's messages stand
    one for one for the caller's, a content that is the empty string
    going out as " ", any other string content unchanged, and a
    multi-part content as [_convertMessage] rewrote it.  Whatever the
    inputs, and also when the call throws, no cell that existed is
    changed. *)
Theorem chat_payload_fixes_empty_content (cfg : Config) (h : list Heap.cell)
    (heap_messages heap_options : Heap.val) (messages : list js)
    (options : CompletionOptions) :
  Heap.denotes (λ _, True) h heap_messages (JArr messages) →
  options_on (λ _, True) h heap_options options →
  Forall (λ m, is_ChatMessage m = true) messages →
  (∃ body h' payload wire,
     Heap.chat_body cfg heap_messages heap_options h = (Ok body, h') ∧
     Heap.denotes (λ _, True) h' body (JObj payload) ∧
     Heap.denotes (λ _, True) h' heap_messages (JArr messages) ∧
     chat_body cfg messages options = Ok payload ∧
     (∀ URL_new fetch href,
        _getEndpoint URL_new cfg ChatCompletions = Ok href →
        post URL_new fetch cfg ChatCompletions payload =
          fetch {| url := href; method := "POST"; headers := post_headers cfg;
                   body := Some (JObj payload) |}) ∧
     field payload "messages" = JArr wire ∧
     Forall2 (λ m w,
                (prop m "content" = JStr "" → prop w "content" = JStr " ") ∧
                (∀ s, prop m "content" = JStr s → s ≠ "" →
                      prop w "content" = JStr s) ∧
                (∀ parts, prop m "content" = JArr parts →
                   ∃ parts', prop w "content" = JArr parts' ∧
                             Forall2 converted_part parts parts'))
             messages wire) ∧
  (∀ (any_messages any_options : Heap.val) (h0 : list Heap.cell)
     (l : Heap.loc) (c : Heap.cell),
     h0 !! l = Some c →
     (Heap.chat_body cfg any_messages any_options h0).2 !! l = Some c).
Proof.
  intros Hheap Hoptions Hmessages. split.
  - destruct (chat_body_transmits cfg messages options Hmessages)
      as (payload & wire & Hbody & Hfield & _ & Hall).
    destruct (HeapSim.chat_body_simulated cfg h heap_messages heap_options
                messages options payload Hheap Hoptions Hbody)
      as (l & h' & Hrun & _ & Hpayload).
    exists (Heap.VRef l), h', payload, wire.
    split_and!; [done|done| |done| |done|].
    + eapply HeapSim.denotes_mono; [done| |exact Hheap].
      intros l' c _ Hl'.
      pose proof (HeapFacts.chat_body_frame cfg heap_messages heap_options
                    h l' c Hl') as Hframe.
      by rewrite Hrun in Hframe.
    + intros URL_new fetch href Hhref. unfold post. by rewrite Hhref.
    + eapply Forall2_impl; [exact Hall|]. intros m w. unfold transmitted.
      destruct (prop m "content"); try done.
      * intros ->. split_and!; [by intros [= ->]| |done].
        intros ? [= <-] Hne. by rewrite (bool_decide_eq_false_2 _ Hne).
      * intros Hparts. split_and!; [done|done|]. by intros ? [= <-].
  - intros any_messages any_options h0 l c. apply HeapFacts.chat_body_frame.
Qed.

Lemma chat_payload_fixes_empty_content_witness :
  ∃ body h' payload,
    Heap.chat_body Sample.cfg (Heap.VRef 2%nat) (Heap.VRef 3%nat) Sample.heap =
      (Ok body, h') ∧
    Heap.denotes (λ _, True) h' body (JObj payload) ∧
    Heap.denotes (λ _, True) h' (Heap.VRef 2%nat) (JArr [Sample.empty; Sample.hi]) ∧
    field payload "messages" =
      JArr [ JObj [ ("role", JStr "user"); ("content", JStr " ") ]; Sample.hi ].
Proof.
  destruct (proj1 (chat_payload_fixes_empty_content Sample.cfg Sample.heap
                     (Heap.VRef 2%nat) (Heap.VRef 3%nat)
                     [Sample.empty; Sample.hi] (Sample.options "gpt-4")
                     sample_heap_messages sample_heap_options
                     ltac:(by repeat constructor)))
    as (body & h' & payload & wire & Hrun & Hbody & Hcaller & Hpayload & _).
  exists body, h', payload. split_and!; [done|done|done|].
  revert Hpayload. vm_compute. by intros [= <-].
Defined.

(** C4, as the spec has it, fails: a multi-part content is not the empty
    string, and it is not transmitted unchanged. *)
Lemma multipart_content_is_rewritten :
  ∃ payload w,
    chat_body Sample.cfg [Sample.multi] (Sample.options "gpt-4") = Ok payload ∧
    field payload "messages" = JArr [w] ∧
    prop Sample.multi "content" ≠ JStr "" ∧
    prop w "content" ≠ prop Sample.multi "content".
Proof. eexists. eexists. split; [reflexivity|]. by vm_compute. Qed.


(** * Further properties *)

(** ** Routing *)

Lemma model_lists_disjoint (m : string) :
  m ∈ NON_CHAT_MODELS → m ∉ CHAT_ONLY_MODELS.
Proof.
  intros Hin.
  assert (Forall (λ m, m ∉ CHAT_ONLY_MODELS) NON_CHAT_MODELS) as Hall.
  { unfold NON_CHAT_MODELS.
    repeat (apply Forall_cons_2; [apply (bool_decide_unpack _); by vm_compute|]).
    apply Forall_nil_2. }
  by eapply Forall_forall in Hall.
Qed.

(** X1.  The two model lists have no model in common, so a listed model
    decides the route alone: every model of [NON_CHAT_MODELS] goes to the
    legacy path and every model of [CHAT_ONLY_MODELS] to the chat path,
    whatever the flag; for any other model the flag decides. *)
Theorem routing_by_model_lists
    (URL_new : string → option string → option string)
    (fetch : Request → result Response) (sep : string) (cfg : Config)
    (messages : list js) (options : CompletionOptions) :
  (∀ m, m ∈ NON_CHAT_MODELS → m ∉ CHAT_ONLY_MODELS) ∧
  (model options ∈ NON_CHAT_MODELS →
   _streamChat URL_new fetch sep cfg messages options =
     legacy_path URL_new fetch sep cfg messages options) ∧
  (model options ∈ CHAT_ONLY_MODELS →
   _streamChat URL_new fetch sep cfg messages options =
     chat_path URL_new fetch cfg messages options) ∧
  (model options ∉ NON_CHAT_MODELS → model options ∉ CHAT_ONLY_MODELS →
   _streamChat URL_new fetch sep cfg messages options =
     if useLegacyCompletionsEndpoint cfg
     then legacy_path URL_new fetch sep cfg messages options
     else chat_path URL_new fetch cfg messages options).
Proof.
  unfold _streamChat, includes. split_and!.
  - apply model_lists_disjoint.
  - intros Hnon. pose proof (model_lists_disjoint _ Hnon) as Hchat.
    by rewrite (bool_decide_eq_false_2 _ Hchat), (bool_decide_eq_true_2 _ Hnon).
  - intros Hchat. by rewrite (bool_decide_eq_true_2 _ Hchat).
  - intros Hnon Hchat.
    by rewrite (bool_decide_eq_false_2 _ Hchat), (bool_decide_eq_false_2 _ Hnon).
Qed.

Lemma routing_by_model_lists_witness :
  _streamChat url_model (Sample.server []) ""
    {| apiBase := Some "https://x/"; apiKey := None; apiType := None;
       engine := None; apiVersion := None;
       useLegacyCompletionsEndpoint := true |}
    [Sample.hi] (Sample.options "gpt-4") =
  chat_path url_model (Sample.server [])
    {| apiBase := Some "https://x/"; apiKey := None; apiType := None;
       engine := None; apiVersion := None;
       useLegacyCompletionsEndpoint := true |}
    [Sample.hi] (Sample.options "gpt-4").
Proof.
  apply (proj1 (proj2 (proj2 (routing_by_model_lists url_model (Sample.server [])
                                "" _ [Sample.hi] (Sample.options "gpt-4"))))).
  apply (bool_decide_unpack _). by vm_compute.
Defined.

(** X2.  On the legacy path only the last message is read: two
    conversations that end with the same message give the same stream,
    whatever comes before it. *)
Theorem legacy_path_reads_last_message_only
    (URL_new : string → option string → option string)
    (fetch : Request → result Response) (sep : string) (cfg : Config)
    (front front' : list js) (m : js) (options : CompletionOptions) :
  takes_legacy_path cfg options = true →
  _streamChat URL_new fetch sep cfg (front ++ [m]) options =
  _streamChat URL_new fetch sep cfg (front' ++ [m]) options.
Proof.
  intros Hroute. unfold _streamChat.
  fold (takes_legacy_path cfg options). rewrite Hroute.
  unfold legacy_path, legacy_prompt, last_message.
  by rewrite !last_snoc.
Qed.

Lemma legacy_path_reads_last_message_only_witness :
  _streamChat url_model (Sample.server [Sample.choice_open]) "" Sample.cfg
    ([Sample.multi; Cases.no_content] ++ [Sample.hi]) (Sample.options "davinci") =
  _streamChat url_model (Sample.server [Sample.choice_open]) "" Sample.cfg
    ([] ++ [Sample.hi]) (Sample.options "davinci").
Proof.
  exact (legacy_path_reads_last_message_only url_model
           (Sample.server [Sample.choice_open]) "" Sample.cfg
           [Sample.multi; Cases.no_content] [] Sample.hi
           (Sample.options "davinci") eq_refl).
Defined.

(** ** The message converter *)

Lemma mapM_result_Ok_inv {A B} (f : A → result B) (xs : list A) (ys : list B) :
  mapM f xs = Ok ys → Forall2 (λ x y, f x = Ok y) xs ys.
Proof.
  revert ys. induction xs as [|x xs IH]; intros ys.
  - intros [= <-]. constructor.
  - rewrite mapM_result_cons.
    destruct (f x) as [y|e] eqn:Hx; [|done].
    destruct (mapM f xs) as [ys'|e] eqn:Hxs; [|done].
    intros [= <-]. constructor; [done|]. by apply IH.
Qed.

Lemma mapM_result_Throw_inv {A B} (f : A → result B) (xs : list A) (e : error) :
  mapM f xs = Throw e → ∃ x, x ∈ xs ∧ f x = Throw e.
Proof.
  induction xs as [|x xs IH].
  - done.
  - rewrite mapM_result_cons.
    destruct (f x) as [y|e'] eqn:Hx.
    + destruct (mapM f xs) as [ys'|e'] eqn:Hxs; [done|].
      intros [= ->]. destruct IH as (x' & Hin & Hx'); [done|].
      exists x'. split; [by constructor|done].
    + intros [= ->]. exists x. split; [by constructor|done].
Qed.

Lemma convertPart_cases (part : js) :
  if nullish part
  then convertPart part = Throw TypeError
  else ∃ part', convertPart part = Ok part'.
Proof.
  destruct (nullish part) eqn:Hpart.
  - unfold convertPart, get. by rewrite Hpart.
  - destruct (convertPart_defined part Hpart) as (part' & Hok & _). by exists part'.
Qed.

Lemma convertParts_cases (parts : list js) :
  if forallb (λ part, negb (nullish part)) parts
  then ∃ parts', mapM convertPart parts = Ok parts'
  else mapM convertPart parts = Throw TypeError.
Proof.
  induction parts as [|part parts IH].
  - by exists [].
  - rewrite mapM_result_cons. cbn [forallb].
    pose proof (convertPart_cases part) as Hpart.
    destruct (nullish part); cbn [negb andb].
    + by rewrite Hpart.
    + destruct Hpart as (part' & ->).
      destruct (forallb _ parts).
      * destruct IH as (parts' & ->). by eexists.
      * by rewrite IH.
Qed.

Lemma convertMessage_cases (m : js) :
  if convertible m
  then ∃ m', _convertMessage m = Ok m'
  else _convertMessage m = Throw TypeError.
Proof.
  unfold convertible, _convertMessage, get.
  destruct (nullish m); simpl; [done|].
  destruct (prop m "content") as [| |b|n|s|parts|fs]; simpl; try done.
  - by exists m.
  - pose proof (convertParts_cases parts) as Hparts.
    destruct (forallb _ parts).
    + destruct Hparts as (parts' & ->). by eexists.
    + by rewrite Hparts.
Qed.

(** X3.  [_convertMessage] returns a message exactly for the convertible
    ones: a value that is neither [null] nor [undefined], whose content is
    a string or an array without [null] and [undefined] entries.  On every
    other value it throws, and what it throws is always a TypeError. *)
Theorem convertMessage_succeeds_iff (m : js) :
  ((∃ m', _convertMessage m = Ok m') ↔ convertible m = true) ∧
  (_convertMessage m = Throw TypeError ↔ convertible m = false) ∧
  (∀ e, _convertMessage m = Throw e → e = TypeError).
Proof.
  pose proof (convertMessage_cases m) as Hcases.
  destruct (convertible m).
  - destruct Hcases as (m' & Hok). rewrite Hok. split_and!.
    + split; [done|]. by exists m'.
    + split; done.
    + done.
  - rewrite Hcases. split_and!.
    + split; [|done]. by intros (m' & ?).
    + done.
    + by intros e [= <-].
Qed.

(** ** Copies made by the spread syntax *)

Lemma field_not_in (fs : list (string * js)) (k : string) :
  k ∉ fs.*1 → field fs k = JUndef.
Proof.
  induction fs as [|[k' v] fs IH]; simpl; [done|].
  intros Hk. apply not_elem_of_cons in Hk as [Hne Hk].
  rewrite bool_decide_eq_false_2 by done. by apply IH.
Qed.

Lemma field_foldl_set_field (fs acc : list (string * js)) (k : string) :
  NoDup fs.*1 →
  field (foldl (λ o kv, set_field o kv.1 kv.2) acc fs) k =
    if bool_decide (k ∈ fs.*1) then field fs k else field acc k.
Proof.
  revert acc. induction fs as [|[k' v] fs IH]; intros acc Hnodup; simpl.
  - done.
  - apply NoDup_cons in Hnodup as [Hk' Hnodup].
    rewrite IH by done. destruct (decide (k' = k)) as [->|Hne].
    + rewrite (bool_decide_eq_false_2 _ Hk').
      rewrite bool_decide_eq_true_2 by constructor.
      rewrite bool_decide_eq_true_2 by done. apply field_set_field.
    + rewrite (bool_decide_eq_false_2 (k' = k)) by done.
      rewrite field_set_field_ne by done.
      destruct (decide (k ∈ fs.*1)) as [Hin|Hout].
      * rewrite !bool_decide_eq_true_2; [done|by constructor|done].
      * rewrite !bool_decide_eq_false_2; [done| |done].
        intros Hin. apply elem_of_cons in Hin as [->|Hin]; done.
Qed.

(** [{...o}] of an object has the properties of [o]. *)
Lemma field_spread_object (fs : list (string * js)) (k : string) :
  NoDup fs.*1 → field (spread [] (JObj fs)) k = field fs k.
Proof.
  intros Hnodup. unfold spread. simpl. rewrite field_foldl_set_field by done.
  case_bool_decide as Hin; [done|]. simpl. symmetry. by apply field_not_in.
Qed.

(** X4.  The [image_url] object of a converted part is a copy of the
    part's [imageUrl] in which only [detail] differs: every other
    property, the URL among them, is carried over, and a [detail] the
    caller chose is replaced by "low". *)
Theorem convertPart_copies_image_url (part : js) (image : list (string * js)) :
  nullish part = false → prop part "imageUrl" = JObj image → NoDup image.*1 →
  ∃ part' image_url,
    convertPart part = Ok part' ∧
    prop part' "image_url" = JObj image_url ∧
    field image_url "detail" = JStr "low" ∧
    ∀ k, k ≠ "detail" → field image_url k = field image k.
Proof.
  intros Hpart Himage Hnodup. unfold convertPart.
  rewrite !get_not_nullish by done. rewrite Himage.
  eexists. eexists. split; [reflexivity|]. split; [reflexivity|]. split.
  - apply field_set_field.
  - intros k Hk. rewrite field_set_field_ne by done.
    by apply field_spread_object.
Qed.

Lemma convertPart_copies_image_url_witness :
  ∃ part' image_url,
    convertPart Cases.detailed_image = Ok part' ∧
    prop part' "image_url" = JObj image_url ∧
    field image_url "detail" = JStr "low" ∧
    ∀ k, k ≠ "detail" →
         field image_url k = field [ ("url", JStr "u"); ("detail", JStr "high") ] k.
Proof.
  apply (convertPart_copies_image_url Cases.detailed_image
           [ ("url", JStr "u"); ("detail", JStr "high") ]).
  - reflexivity.
  - reflexivity.
  - apply (bool_decide_unpack _). by vm_compute.
Defined.

(** X5.  A converted message keeps every property of the message but
    [content]: the role, the name and whatever else the caller put on the
    object go out unchanged, also when the content is rewritten. *)
Theorem convertMessage_keeps_other_fields (fs : list (string * js)) (m' : js)
    (k : string) :
  NoDup fs.*1 → _convertMessage (JObj fs) = Ok m' → k ≠ "content" →
  prop m' k = field fs k.
Proof.
  intros Hnodup Hok Hk. unfold _convertMessage, get in Hok. simpl in Hok.
  destruct (is_string (field fs "content")).
  - by injection Hok as <-.
  - destruct (array_map convertPart (field fs "content")) as [parts|e]; [|done].
    simpl in Hok. injection Hok as <-. simpl.
    rewrite field_set_field_ne by done.
    by apply field_spread_object.
Qed.

Lemma convertMessage_keeps_other_fields_witness :
  ∃ m', _convertMessage Sample.multi = Ok m' ∧ prop m' "role" = JStr "user".
Proof.
  eexists. split; [reflexivity|].
  apply (convertMessage_keeps_other_fields
           [ ("role", JStr "user");
             ("content", JArr [ Sample.text_part; Sample.image_part ]) ]).
  - apply (bool_decide_unpack _). by vm_compute.
  - reflexivity.
  - done.
Defined.

(** ** The two request payloads *)

(** X6.  Whenever the chat payload exists, so does the legacy payload,
    and the two carry the same seven option fields with the same values:
    [maxTokens], [topP], [frequencyPenalty] and [presencePenalty] go out
    under their snake-case names, and the stop list is cut for both.
    Both ask for a stream.  The chat payload has one message per message
    of the caller and no prompt; the legacy payload has the prompt and no
    messages. *)
Theorem payloads_share_options (cfg : Config) (prompt : js) (messages : list js)
    (options : CompletionOptions) (chat : list (string * js)) :
  chat_body cfg messages options = Ok chat →
  ∃ legacy wire,
    legacy_body cfg prompt options = Ok legacy ∧
    (∀ k, k ∈ OPTION_FIELDS → field legacy k = field chat k) ∧
    field chat "model" = JStr (model options) ∧
    field chat "max_tokens" = maxTokens options ∧
    field chat "temperature" = temperature options ∧
    field chat "top_p" = topP options ∧
    field chat "frequency_penalty" = frequencyPenalty options ∧
    field chat "presence_penalty" = presencePenalty options ∧
    field chat "stop" =
      opt_strings (if jan_marker cfg then opt_slice0 4 (stop options)
                   else stop options) ∧
    field chat "stream" = JBool true ∧ field legacy "stream" = JBool true ∧
    field chat "messages" = JArr wire ∧ length wire = length messages ∧
    field chat "prompt" = JUndef ∧
    field legacy "prompt" = prompt ∧ field legacy "messages" = JUndef.
Proof.
  unfold chat_body, legacy_body, _convertArgs.
  destruct (mapM _convertMessage messages) as [msgs|e] eqn:Hmsgs; [|done].
  simpl.
  destruct (mapM fix_content msgs) as [wire|e] eqn:Hwire; [|done].
  simpl. intros [= <-]. eexists. exists wire. split; [reflexivity|].
  split_and!; try done.
  - intros k Hk. unfold OPTION_FIELDS in Hk.
    repeat (apply elem_of_cons in Hk as [->|Hk]; [reflexivity|]).
    by apply elem_of_nil in Hk.
  - simpl. by destruct (jan_marker cfg).
  - apply mapM_result_Ok_inv in Hmsgs, Hwire.
    apply Forall2_length in Hmsgs, Hwire. congruence.
Qed.

Lemma payloads_share_options_witness :
  ∃ chat legacy,
    chat_body Sample.jan_cfg [Sample.hi] Sample.six_stops = Ok chat ∧
    legacy_body Sample.jan_cfg (JStr "hi") Sample.six_stops = Ok legacy ∧
    field legacy "stop" = field chat "stop" ∧
    field chat "stop" = JArr [JStr "a"; JStr "b"; JStr "c"; JStr "d"].
Proof.
  destruct (payloads_share_options Sample.jan_cfg (JStr "hi") [Sample.hi]
              Sample.six_stops _ eq_refl)
    as (legacy & wire & Hlegacy & Hshared & _ & _ & _ & _ & _ & _ & Hstop & _).
  eexists. exists legacy. split; [reflexivity|]. split; [exact Hlegacy|].
  split; [|exact Hstop].
  apply Hshared. apply (bool_decide_unpack _). by vm_compute.
Defined.

(** ** Failures before and during the stream *)

Lemma convertMessages_cases (messages : list js) :
  if forallb convertible messages
  then ∃ msgs, mapM _convertMessage messages = Ok msgs
  else mapM _convertMessage messages = Throw TypeError.
Proof.
  induction messages as [|m messages IH].
  - by exists [].
  - rewrite mapM_result_cons. cbn [forallb].
    pose proof (convertMessage_cases m) as Hm.
    destruct (convertible m); cbn [andb].
    + destruct Hm as (m' & ->).
      destruct (forallb _ messages).
      * destruct IH as (msgs & ->). by eexists.
      * by rewrite IH.
    + by rewrite Hm.
Qed.

(** X7.  On the chat path one message that cannot be converted fails the
    whole call before anything is sent: the stream yields nothing and
    ends with a TypeError, whatever the URL constructor and the transport
    would do, and also when the API base is missing, so that the TypeError
    hides the configuration error. *)
Theorem chat_path_rejects_bad_message
    (URL_new : string → option string → option string)
    (fetch : Request → result Response) (sep : string) (cfg : Config)
    (messages : list js) (options : CompletionOptions) :
  takes_legacy_path cfg options = false →
  Exists (λ m, convertible m = false) messages →
  _streamChat URL_new fetch sep cfg messages options = Run [] (Some TypeError).
Proof.
  intros Hroute Hbad. unfold _streamChat.
  fold (takes_legacy_path cfg options). rewrite Hroute.
  unfold chat_path, chat_body, _convertArgs.
  pose proof (convertMessages_cases messages) as Hcases.
  destruct (forallb convertible messages) eqn:Hall.
  - apply Exists_exists in Hbad as (m & Hin & Hm).
    rewrite forallb_forall in Hall.
    apply list_elem_of_In in Hin. apply Hall in Hin. congruence.
  - by rewrite Hcases.
Qed.

Lemma chat_path_rejects_bad_message_witness :
  _streamChat url_model (Sample.server [Sample.delta_event "a"]) ""
    Cases.no_base_cfg [Sample.hi; Cases.no_content] (Sample.options "gpt-4") =
  Run [] (Some TypeError).
Proof.
  apply chat_path_rejects_bad_message.
  - reflexivity.
  - apply Exists_cons_tl, Exists_cons_hd. reflexivity.
Defined.

Lemma omap_fmap_emit {A B} (f : A → B) (emit : js → option A) (values : list js) :
  omap (λ value, f <$> emit value) values = f <$> omap emit values.
Proof.
  induction values as [|value values IH]; [done|].
  cbn [omap list_omap]. destruct (emit value); cbn; by rewrite IH.
Qed.

Lemma streamChat_answered
    (URL_new : string → option string → option string)
    (fetch : Request → result Response) (sep : string) (cfg : Config)
    (messages : list js) (options : CompletionOptions)
    (payload : list (string * js)) (response : Response) :
  route_body sep cfg messages options = Ok payload →
  post URL_new fetch cfg (route_endpoint cfg options) payload = Ok response →
  _streamChat URL_new fetch sep cfg messages options =
    if takes_legacy_path cfg options
    then run_map assistant_chunk
           (for_await legacy_event (events response) (failure response))
    else for_await chat_event (events response) (failure response).
Proof.
  unfold route_body, route_endpoint, _streamChat.
  fold (takes_legacy_path cfg options).
  destruct (takes_legacy_path cfg options); intros Hbody Hpost.
  - unfold legacy_path.
    by rewrite (legacy_stream_answered _ _ _ _ _ _ _ Hbody Hpost).
  - by apply chat_path_answered with (payload := payload).
Qed.

(** X8.  A [null] event ends the stream on either route: the chunks of
    the events before it have been yielded, the stream ends with a
    TypeError, no later event is handled, and a failure of the transport
    after it goes unreported. *)
Theorem stream_ends_at_null_event
    (URL_new : string → option string → option string)
    (fetch : Request → result Response) (sep : string) (cfg : Config)
    (messages : list js) (options : CompletionOptions)
    (payload : list (string * js)) (response : Response)
    (before after : list js) (value : js) :
  route_body sep cfg messages options = Ok payload →
  post URL_new fetch cfg (route_endpoint cfg options) payload = Ok response →
  events response = before ++ value :: after →
  Forall (λ value, nullish value = false) before →
  nullish value = true →
  _streamChat URL_new fetch sep cfg messages options =
    Run (omap (route_emit cfg options) before) (Some TypeError).
Proof.
  intros Hbody Hpost Hevents Hbefore Hvalue.
  rewrite (streamChat_answered _ _ _ _ _ _ _ _ Hbody Hpost), Hevents.
  destruct (nullish_event_throws value Hvalue) as [Hchat Hlegacy].
  unfold route_emit. destruct (takes_legacy_path cfg options).
  - rewrite (for_await_stops legacy_event legacy_emit _ _ _ _ TypeError);
      [|by eapply Forall_impl; [exact Hbefore|apply legacy_event_defined]|done].
    unfold run_map. simpl. by rewrite omap_fmap_emit.
  - apply for_await_stops; [|done].
    eapply Forall_impl; [exact Hbefore|apply chat_event_defined].
Qed.

Lemma stream_ends_at_null_event_witness :
  _streamChat url_model
    (λ _, Ok {| events := [ Sample.delta_event "a"; JNull; Sample.delta_event "b" ];
                failure := Some (Error "connection reset") |})
    "" Sample.cfg [Sample.hi] (Sample.options "gpt-4") =
  Run [ JObj [ ("role", JStr "assistant"); ("content", JStr "a") ] ]
      (Some TypeError).
Proof.
  eapply (stream_ends_at_null_event url_model _ "" Sample.cfg [Sample.hi]
            (Sample.options "gpt-4") _ _
            [ Sample.delta_event "a" ] [ Sample.delta_event "b" ] JNull).
  - reflexivity.
  - reflexivity.
  - reflexivity.
  - by repeat constructor.
  - reflexivity.
Defined.

Lemma for_await_length {A} (body : js → result (option A)) (values : list js)
    (failure : option error) :
  (length (yielded (for_await body values failure)) ≤ length values)%nat.
Proof.
  induction values as [|value values IH]; simpl; [done|].
  destruct (body value) as [[a|]|e]; simpl; lia.
Qed.

(** X9.  No chunk without an answer: when [_streamChat] yields anything,
    the payload of its route was built and the POST to the endpoint of
    its route was answered, and there are at most as many chunks as the
    answer has events.  A failure to build the payload, to resolve the
    endpoint or to reach the server gives a stream without chunks. *)
Theorem chunks_need_an_answer
    (URL_new : string → option string → option string)
    (fetch : Request → result Response) (sep : string) (cfg : Config)
    (messages : list js) (options : CompletionOptions) :
  let chunks := _streamChat URL_new fetch sep cfg messages options in
  (∃ payload response,
     route_body sep cfg messages options = Ok payload ∧
     post URL_new fetch cfg (route_endpoint cfg options) payload = Ok response ∧
     (length (yielded chunks) ≤ length (events response))%nat) ∨
  (∃ e, chunks = Run [] (Some e) ∧
     (route_body sep cfg messages options = Throw e ∨
      ∃ payload, route_body sep cfg messages options = Ok payload ∧
        post URL_new fetch cfg (route_endpoint cfg options) payload = Throw e)).
Proof.
  intros chunks.
  destruct (route_body sep cfg messages options) as [payload|e] eqn:Hbody.
  - destruct (post URL_new fetch cfg (route_endpoint cfg options) payload)
      as [response|e] eqn:Hpost.
    + left. exists payload, response. split_and!; [done|done|].
      subst chunks. rewrite (streamChat_answered _ _ _ _ _ _ _ _ Hbody Hpost).
      destruct (takes_legacy_path cfg options).
      * unfold run_map. simpl. rewrite length_fmap. apply for_await_length.
      * apply for_await_length.
    + right. exists e. split; [|right; by exists payload].
      subst chunks. revert Hbody Hpost.
      unfold route_body, route_endpoint, _streamChat.
      fold (takes_legacy_path cfg options).
      destruct (takes_legacy_path cfg options); intros Hbody Hpost.
      * unfold legacy_path, _legacystreamComplete. rewrite Hbody. simpl.
        by rewrite Hpost.
      * unfold chat_path. rewrite Hbody. simpl. by rewrite Hpost.
  - right. exists e. split; [|by left].
    subst chunks. revert Hbody.
    unfold route_body, _streamChat. fold (takes_legacy_path cfg options).
    destruct (takes_legacy_path cfg options); intros Hbody.
    + unfold legacy_path, _legacystreamComplete. by rewrite Hbody.
    + unfold chat_path. by rewrite Hbody.
Qed.

(** ** Completions of a prompt *)

(** X10.  What [_complete] and [_streamComplete] send for a prompt: on
    the chat route one user message whose content is the prompt, or a
    single space when the prompt is empty; on the legacy route the prompt
    itself, the empty prompt included. *)
Theorem prompt_on_the_wire (sep : string) (cfg : Config) (prompt : string)
    (options : CompletionOptions) :
  (∃ payload,
     chat_body cfg [user_message prompt] options = Ok payload ∧
     field payload "messages" =
       JArr [ JObj [ ("role", JStr "user");
                     ("content",
                      JStr (if bool_decide (prompt = "") then " " else prompt)) ] ]) ∧
  (∃ payload,
     legacy_body cfg (legacy_prompt sep [user_message prompt]) options = Ok payload ∧
     field payload "prompt" = JStr prompt).
Proof.
  split.
  - eexists. split; [reflexivity|]. simpl. by case_bool_decide.
  - eexists. split; [reflexivity|]. simpl.
    unfold legacy_prompt, last_message, js_or. simpl.
    case_bool_decide as Hprompt; simpl; by subst.
Qed.

Lemma omap_Some_fmap {A} (f : js → A) (values : list js) :
  omap (λ value, Some (f value)) values = f <$> values.
Proof. induction values as [|value values IH]; [done|]. cbn. by rewrite IH. Qed.

Lemma streamComplete_chunks
    (URL_new : string → option string → option string)
    (fetch : Request → result Response) (sep : string) (cfg : Config)
    (prompt : string) (options : CompletionOptions) :
  _streamComplete URL_new fetch sep cfg prompt options =
    Run ((λ chunk, stripImages sep (prop chunk "content")) <$>
           yielded (_streamChat URL_new fetch sep cfg [user_message prompt] options))
        (thrown (_streamChat URL_new fetch sep cfg [user_message prompt] options)).
Proof.
  unfold _streamComplete.
  rewrite (for_await_total _
             (λ chunk, Some (stripImages sep (prop chunk "content")))).
  - by rewrite omap_Some_fmap.
  - eapply Forall_impl; [apply streamChat_chunks_defined|].
    intros chunk Hchunk. simpl. by rewrite get_not_nullish.
Qed.

(** X11.  When the content of every chunk that [_streamChat] yields for
    the conversation [[{role: "user", content: prompt}]] is a content as
    the specification describes it, [_streamComplete] yields one piece per
    chunk, in order: the chunk's content without its images, a string.
    It ends as that stream ends. *)
Theorem streamComplete_strips_every_chunk
    (URL_new : string → option string → option string)
    (fetch : Request → result Response) (sep : string) (cfg : Config)
    (prompt : string) (options : CompletionOptions) :
  let chunks := _streamChat URL_new fetch sep cfg [user_message prompt] options in
  let pieces := _streamComplete URL_new fetch sep cfg prompt options in
  Forall (λ chunk, is_MessageContent (prop chunk "content") = true)
    (yielded chunks) →
  thrown pieces = thrown chunks ∧
  Forall2 (λ chunk piece,
             piece = stripImages sep (prop chunk "content") ∧
             is_string piece = true)
    (yielded chunks) (yielded pieces).
Proof.
  intros chunks pieces Hcontents. subst chunks pieces.
  rewrite streamComplete_chunks. simpl. split; [done|].
  apply Forall2_fmap_r, Forall_Forall2_diag.
  eapply Forall_impl; [exact Hcontents|]. intros chunk Hchunk. simpl in *.
  split; [done|]. by destruct (prop chunk "content").
Qed.

Lemma streamComplete_strips_every_chunk_witness :
  let chunks :=
    _streamChat url_model
      (Sample.server [ Sample.delta_event "a"; Sample.delta_event "b" ])
      "" Sample.cfg [user_message "hi"] (Sample.options "gpt-4") in
  let pieces :=
    _streamComplete url_model
      (Sample.server [ Sample.delta_event "a"; Sample.delta_event "b" ])
      "" Sample.cfg "hi" (Sample.options "gpt-4") in
  yielded pieces = [ JStr "a"; JStr "b" ] ∧
  thrown pieces = thrown chunks ∧
  Forall2 (λ chunk piece,
             piece = stripImages "" (prop chunk "content") ∧
             is_string piece = true)
    (yielded chunks) (yielded pieces).
Proof.
  split; [reflexivity|].
  apply (streamComplete_strips_every_chunk url_model
           (Sample.server [ Sample.delta_event "a"; Sample.delta_event "b" ])
           "" Sample.cfg "hi" (Sample.options "gpt-4")).
  by repeat constructor.
Defined.

Lemma concat_strings_fmap_ext {A} (f g : A → string) (xs : list A) :
  Forall (λ x, f x = g x) xs →
  concat_strings (f <$> xs) = concat_strings (g <$> xs).
Proof.
  induction 1 as [|x xs Hx _ IH]; [done|].
  unfold concat_strings in *. rewrite !fmap_cons. cbn [foldr].
  by rewrite Hx, IH.
Qed.

(** X12.  [_complete] and [_streamComplete] agree when the contents of
    the chunks are strings, as the deltas and texts of the API are: if the
    stream ends without an error, the completion is the concatenation of
    the pieces [_streamComplete] yields. *)
Theorem complete_joins_streamComplete
    (URL_new : string → option string → option string)
    (fetch : Request → result Response) (sep : string) (cfg : Config)
    (prompt : string) (options : CompletionOptions) :
  let chunks := _streamChat URL_new fetch sep cfg [user_message prompt] options in
  thrown chunks = None →
  Forall (λ chunk, is_string (prop chunk "content") = true) (yielded chunks) →
  _complete URL_new fetch sep cfg prompt options =
    Ok (concat_strings
          (to_string <$> yielded (_streamComplete URL_new fetch sep cfg prompt options))).
Proof.
  intros chunks Hthrown Hstrings. subst chunks.
  rewrite streamComplete_chunks. simpl. unfold _complete.
  rewrite accumulate_concat; [|apply streamChat_chunks_defined|].
  2:{ eapply Forall_impl; [exact Hstrings|]. intros chunk Hchunk. simpl in *.
      by destruct (prop chunk "content"). }
  simpl. rewrite Hthrown. f_equal. rewrite <-list_fmap_compose.
  match goal with |- "" +:+ ?s = _ => change ("" +:+ s) with s end.
  apply concat_strings_fmap_ext.
  eapply Forall_impl; [exact Hstrings|]. intros chunk Hchunk.
  unfold compose. simpl in *. by destruct (prop chunk "content").
Qed.

Lemma complete_joins_streamComplete_witness :
  _complete url_model
    (Sample.server [ Sample.delta_event "a"; Sample.delta_event "";
                     Sample.delta_event "b" ])
    "" Sample.cfg "hi" (Sample.options "gpt-4") =
  Ok (concat_strings
        (to_string <$>
         yielded (_streamComplete url_model
                    (Sample.server [ Sample.delta_event "a"; Sample.delta_event "";
                                     Sample.delta_event "b" ])
                    "" Sample.cfg "hi" (Sample.options "gpt-4")))).
Proof.
  apply complete_joins_streamComplete.
  - reflexivity.
  - by repeat constructor.
Defined.

(** ** The model lister *)

Lemma model_ids_cases (ms : list js) :
  if forallb (λ m, negb (nullish m)) ms
  then mapM (λ m, get m "id") ms = Ok ((λ m, prop m "id") <$> ms)
  else mapM (λ m, get m "id") ms = Throw TypeError.
Proof.
  induction ms as [|m ms IH]; [done|].
  rewrite mapM_result_cons. cbn [forallb]. cbn beta.
  destruct (nullish m) eqn:Hm; cbn [negb andb].
  - assert (get m "id" = Throw TypeError) as ->; [|done].
    unfold get. by rewrite Hm.
  - rewrite get_not_nullish by done.
    destruct (forallb _ ms); by rewrite IH.
Qed.

Lemma listModels_of_body (data : js) :
  (models ← get data "data"; array_map (λ m, get m "id") models) =
    if is_model_list data then Ok (JArr (model_ids data)) else Throw TypeError.
Proof.
  unfold is_model_list, model_ids.
  destruct (nullish data) eqn:Hdata; cbn [negb andb].
  - assert (get data "data" = Throw TypeError) as ->; [|done].
    unfold get. by rewrite Hdata.
  - rewrite get_not_nullish by done. cbn [mbind result_bind].
    destruct (prop data "data") as [| |b|n|s|ms|fs]; try done.
    pose proof (model_ids_cases ms) as Hms. cbn [array_map].
    destruct (forallb _ ms); by rewrite Hms.
Qed.

(** X13.  [listModels] sends one GET to the resolved "models" endpoint,
    with the two key headers and no body, and returns the [id] of every
    record of the answer's [data] array, [undefined] for a record without
    one.  It throws the error of the endpoint or of the transport if one
    fails, and a TypeError when the answer is [null], when its [data] is
    not an array, or when a record is [null].  Without an API base (and
    not on azure) it throws the configuration error and sends nothing. *)
Theorem listModels_answer
    (URL_new : string → option string → option string)
    (fetch_json : Request → result js) (cfg : Config) :
  listModels URL_new fetch_json cfg =
    match _getEndpoint URL_new cfg Models with
    | Throw e => Throw e
    | Ok href =>
        match fetch_json {| url := href; method := "GET";
                            headers := [ ("Authorization",
                                          "Bearer " +:+ default "undefined" (apiKey cfg));
                                         ("api-key", default "" (apiKey cfg)) ];
                            body := None |} with
        | Throw e => Throw e
        | Ok data =>
            if is_model_list data then Ok (JArr (model_ids data))
            else Throw TypeError
        end
    end ∧
  (apiType cfg ≠ Some "azure" → no_base cfg = true →
   listModels URL_new fetch_json cfg = Throw (Error NO_API_BASE)).
Proof.
  split.
  - unfold listModels.
    destruct (_getEndpoint URL_new cfg Models) as [href|e]; [|done]. simpl.
    fold (auth_headers cfg).
    destruct (fetch_json _) as [data|e]; [|done]. simpl.
    apply listModels_of_body.
  - intros Hazure Hbase. unfold listModels.
    by rewrite (proj2 (getEndpoint_no_base URL_new cfg Models) (conj Hazure Hbase)).
Qed.

(** X14.  With a normalized http or https base that ends with a slash
    (not on azure), whatever constructor of URLs follows the standard,
    the listing is asked of the base followed by "models", and the
    identifiers come back in the order of the records. *)
Theorem listModels_asks_base_models
    (URL_new : string → option string → option string)
    (fetch_json : Request → result js)
    (cfg : Config) (base : string) (data : js) (ms : list js) :
  URL_conforms URL_new →
  apiType cfg ≠ Some "azure" → apiBase cfg = Some base →
  normalized base = true → ends_with_slash base = true →
  fetch_json {| url := base +:+ "models"; method := "GET";
                headers := auth_headers cfg; body := None |} = Ok data →
  nullish data = false → prop data "data" = JArr ms →
  Forall (λ m, nullish m = false) ms →
  listModels URL_new fetch_json cfg = Ok (JArr ((λ m, prop m "id") <$> ms)).
Proof.
  intros Hconforms Hazure Hbase Hnormal Hends Hfetch Hdata Hms Hall.
  unfold listModels, _getEndpoint.
  rewrite bool_decide_eq_false_2 by done.
  assert (no_base cfg = false) as ->.
  { unfold no_base. rewrite Hbase. apply bool_decide_eq_false_2.
    intros ->. done. }
  rewrite Hbase.
  rewrite (new_URL_directory URL_new (endpoint_name Models) base
             Hconforms Hnormal Hends eq_refl).
  simpl. rewrite Hfetch. simpl. rewrite listModels_of_body.
  unfold is_model_list, model_ids. rewrite Hdata, Hms. simpl.
  assert (forallb (λ m, negb (nullish m)) ms = true) as ->; [|done].
  apply forallb_forall. intros m Hm. apply list_elem_of_In in Hm.
  rewrite Forall_forall in Hall. by rewrite (Hall m Hm).
Qed.

Lemma listModels_asks_base_models_witness :
  listModels url_model
    (λ request,
       if bool_decide (url request = "http://localhost:1337/v1/models")
       then Ok Cases.listing else Throw (Error "not found"))
    Sample.jan_cfg =
  Ok (JArr [ JStr "gpt-4"; JUndef ]).
Proof.
  apply (listModels_asks_base_models url_model _ Sample.jan_cfg
           "http://localhost:1337/v1/" Cases.listing
           [ JObj [ ("id", JStr "gpt-4") ]; JObj [ ("object", JStr "model") ] ]).
  - apply url_model_conforms.
  - done.
  - reflexivity.
  - reflexivity.
  - reflexivity.
  - reflexivity.
  - reflexivity.
  - reflexivity.
  - by repeat constructor.
Defined.

(** ** Sharing with the caller's objects *)

Lemma keeps_convertMessage_result (h0 : list Heap.cell) (message : Heap.val) :
  Heap.keeps h0 (Heap._convertMessage message)
    (λ message', message' = message ∨ Heap.fresh h0 message').
Proof.
  unfold Heap._convertMessage.
  eapply HeapFacts.keeps_bind; [apply HeapFacts.keeps_get|]. intros content _.
  destruct (Heap.is_string content).
  - apply HeapFacts.keeps_ret. by left.
  - eapply HeapFacts.keeps_bind.
    { apply HeapFacts.keeps_array_map. intros part.
      apply HeapFacts.keeps_convertPart. }
    intros parts _.
    eapply HeapFacts.keeps_bind; [apply HeapFacts.keeps_spread|]. intros fs _.
    eapply HeapFacts.keeps_weaken; [apply HeapFacts.keeps_alloc|].
    intros message' Hfresh. by right.
Qed.

Lemma keeps_convertArgs_result (h0 : list Heap.cell) (cfg : Config)
    (options messages : Heap.val) :
  Heap.keeps h0 (Heap._convertArgs cfg options messages) (Heap.fresh h0).
Proof.
  unfold Heap._convertArgs.
  eapply HeapFacts.keeps_bind.
  { apply HeapFacts.keeps_array_map. intros m. apply HeapFacts.keeps_convertMessage. }
  intros msgs _.
  do 6 (eapply HeapFacts.keeps_bind; [apply HeapFacts.keeps_get|]; intros ? _).
  eapply HeapFacts.keeps_bind with (Q := λ _, True).
  { destruct (jan_marker cfg); [|apply HeapFacts.keeps_get].
    eapply HeapFacts.keeps_bind; [apply HeapFacts.keeps_get|]. intros stop _.
    apply HeapFacts.keeps_opt_slice0. }
  intros stop _. apply HeapFacts.keeps_alloc.
Qed.

(** X15.  What the converters share with the caller.  A message object
    whose content is a string is returned as it is, the very same object
    and no copy, and the heap is left as it was.  In every case the
    result of [_convertMessage] is either the caller's message or an
    object that did not exist before, the result of [_convertArgs] is an
    object that did not exist before, and no object that existed is
    changed by either. *)
Theorem converters_share_or_copy (cfg : Config) (h : list Heap.cell) :
  (∀ l fs s,
     h !! l = Some (Heap.CObj fs) → Heap.field fs "content" = Heap.VStr s →
     Heap._convertMessage (Heap.VRef l) h = (Ok (Heap.VRef l), h)) ∧
  (∀ message message' h',
     Heap._convertMessage message h = (Ok message', h') →
     h `prefix_of` h' ∧ (message' = message ∨ Heap.fresh h message')) ∧
  (∀ options messages args h',
     Heap._convertArgs cfg options messages h = (Ok args, h') →
     h `prefix_of` h' ∧ Heap.fresh h args) ∧
  (∀ message options messages l c,
     h !! l = Some c →
     (Heap._convertMessage message h).2 !! l = Some c ∧
     (Heap._convertArgs cfg options messages h).2 !! l = Some c).
Proof.
  split_and!.
  - intros l fs s Hl Hcontent.
    unfold Heap._convertMessage, Heap.get, Heap.read, mbind, Heap.M_bind.
    rewrite Hl. simpl. by rewrite Hcontent.
  - intros message message' h' Hrun.
    destruct (keeps_convertMessage_result h message h) as [Hprefix Hresult];
      [done|].
    rewrite Hrun in Hprefix, Hresult. simpl in *. split; [done|].
    by apply Hresult.
  - intros options messages args h' Hrun.
    destruct (keeps_convertArgs_result h cfg options messages h)
      as [Hprefix Hresult]; [done|].
    rewrite Hrun in Hprefix, Hresult. simpl in *. split; [done|].
    by apply Hresult.
  - intros message options messages l c Hl. split.
    + destruct (HeapFacts.keeps_convertMessage h message h) as [Hprefix _];
        [done|].
      eapply prefix_lookup_Some; [exact Hl|exact Hprefix].
    + destruct (HeapFacts.keeps_convertArgs h cfg options messages h)
        as [Hprefix _]; [done|].
      eapply prefix_lookup_Some; [exact Hl|exact Hprefix].
Qed.

(** ** The request *)

Lemma streamChat_request
    (URL_new : string → option string → option string)
    (fetch : Request → result Response) (sep : string) (cfg : Config)
    (messages : list js) (options : CompletionOptions)
    (payload : list (string * js)) (href : string) :
  route_body sep cfg messages options = Ok payload →
  _getEndpoint URL_new cfg (route_endpoint cfg options) = Ok href →
  _streamChat URL_new fetch sep cfg messages options =
    gen_bind (fetch {| url := href; method := "POST";
                       headers := post_headers cfg;
                       body := Some (JObj payload) |})
      (λ response,
         if takes_legacy_path cfg options
         then run_map assistant_chunk
                (for_await legacy_event (events response) (failure response))
         else for_await chat_event (events response) (failure response)).
Proof.
  unfold route_body, route_endpoint, _streamChat.
  fold (takes_legacy_path cfg options).
  destruct (takes_legacy_path cfg options); intros Hbody Hhref.
  - unfold legacy_path, _legacystreamComplete, post.
    rewrite Hbody, Hhref. simpl. by destruct (fetch _).
  - unfold chat_path, post. by rewrite Hbody, Hhref.
Qed.

(** X16.  One call of [_streamChat] reaches the transport through one
    request only, the POST of the payload of its route to the resolved
    endpoint of its route, with the JSON content type and the two key
    headers: two transports that answer this request alike give the same
    stream, however they differ on every other request. *)
Theorem streamChat_sends_one_request
    (URL_new : string → option string → option string)
    (fetch fetch' : Request → result Response) (sep : string) (cfg : Config)
    (messages : list js) (options : CompletionOptions)
    (payload : list (string * js)) (href : string) :
  route_body sep cfg messages options = Ok payload →
  _getEndpoint URL_new cfg (route_endpoint cfg options) = Ok href →
  fetch {| url := href; method := "POST";
           headers := [ ("Content-Type", "application/json");
                        ("Authorization",
                         "Bearer " +:+ default "undefined" (apiKey cfg));
                        ("api-key", default "" (apiKey cfg)) ];
           body := Some (JObj payload) |} =
  fetch' {| url := href; method := "POST";
            headers := [ ("Content-Type", "application/json");
                         ("Authorization",
                          "Bearer " +:+ default "undefined" (apiKey cfg));
                         ("api-key", default "" (apiKey cfg)) ];
            body := Some (JObj payload) |} →
  _streamChat URL_new fetch sep cfg messages options =
  _streamChat URL_new fetch' sep cfg messages options.
Proof.
  intros Hbody Hhref Hsame.
  rewrite (streamChat_request _ fetch _ _ _ _ _ _ Hbody Hhref).
  rewrite (streamChat_request _ fetch' _ _ _ _ _ _ Hbody Hhref).
  unfold post_headers, auth_headers, template. by rewrite Hsame.
Qed.

Lemma streamChat_sends_one_request_witness :
  _streamChat url_model
    (λ request, if bool_decide (url request = "https://x/chat/completions")
                then Ok {| events := [ Sample.delta_event "a" ]; failure := None |}
                else Throw (Error "not found"))
    "" Sample.cfg [Sample.hi] (Sample.options "gpt-4") =
  _streamChat url_model (Sample.server [ Sample.delta_event "a" ])
    "" Sample.cfg [Sample.hi] (Sample.options "gpt-4").
Proof.
  eapply streamChat_sends_one_request.
  - reflexivity.
  - reflexivity.
  - reflexivity.
Defined.
